(** * Document segmentation and retrieval ranking of the 3GPP RAG assistant

    A shallow embedding of [src/core/document_processor_UNIFIED.py]
    (extraction dispatch, text normalisation, chunking) and of
    [src/core/retriever.py] (filtering and scoring of nearest-neighbour
    candidates), with the properties of the design specification stated
    and settled against the embedded code.

    Conventions.
    - A Python [str] is a list of characters; a character is an [ascii],
      read as the code point U+0000..U+00FF.  The character classes of
      Python's [re] module ([\s], [\w], [\d]) are written out for that
      range.
    - Python integers are [Z]; list positions produced by the regex
      engine are [nat].
    - A [dict] with string keys is a [gmap string scalar].
    - The [while] loop of [chunk_text] is run with fuel: [None] means the
      fuel ran out, never that the loop ended.
    - Distances of the vector index are rationals [Q]; rounding of the
      binary floating point subtraction is not modelled.
    - The extraction backends, the embedding model and the collection of
      the vector store are parameters: each answers a call with its
      result or with the exception it raises, and that exception
      propagates wherever the source does not catch it. *)

From Stdlib Require Import ZArith QArith Ascii String List Lia Sorting.Sorted.
From stdpp Require Import base option list gmap strings pretty.

Local Open Scope Z_scope.
Local Open Scope list_scope.

(** ** Characters and strings *)

Module Text.

Abbreviation str := (list ascii).

(** A string literal as a Python [str]. *)
Definition s (lit : string) : str := list_ascii_of_string lit.

Definition code (c : ascii) : N := N_of_ascii c.

Definition in_range (lo hi : N) (c : ascii) : bool :=
  ((lo <=? code c) && (code c <=? hi))%N.

Definition is_char (x : ascii) (c : ascii) : bool := Ascii.eqb x c.

(** [\s] on [str] patterns, and [str.isspace]: TAB..CR, FS..US, space,
    NEL and NBSP below U+0100. *)
Definition is_space (c : ascii) : bool :=
  in_range 9 13 c || in_range 28 32 c || in_range 133 133 c
  || in_range 160 160 c.

(** [\d]: the decimal digits. *)
Definition is_digit (c : ascii) : bool := in_range 48 57 c.

(** [\w]: alphanumeric characters ([str.isalnum]) and the underscore. *)
Definition is_word (c : ascii) : bool :=
  in_range 48 57 c || in_range 65 90 c || in_range 97 122 c
  || in_range 95 95 c
  || in_range 170 170 c || in_range 178 179 c || in_range 181 181 c
  || in_range 185 186 c || in_range 188 190 c
  || in_range 192 214 c || in_range 216 246 c || in_range 248 255 c.

Definition newline : ascii := ascii_of_N 10.
Definition space : ascii := ascii_of_N 32.

Definition is_newline (c : ascii) : bool := is_char newline c.

(** [.] without [re.DOTALL]: any character but the newline. *)
Definition is_dot (c : ascii) : bool := negb (is_newline c).

(** The sentence terminators [[.!?]]. *)
Definition is_terminator (c : ascii) : bool :=
  is_char "." c || is_char "!" c || is_char "?" c.

(** The punctuation kept by [clean_text]: [.,;:()\[\]\-/#|]. *)
Definition is_kept_punct (c : ascii) : bool :=
  existsb (fun x => is_char x c)
    (s ".,;:()[]-/#|").

(** The characters that are not matched by
    [[^\w\s.,;:()\[\]\-/\n#|]]. *)
Definition allowed (c : ascii) : bool :=
  is_word c || is_space c || is_kept_punct c || is_newline c.

(** [str.lower] one character at a time: A..Z and the Latin-1 capitals. *)
Definition lower_char (c : ascii) : ascii :=
  if in_range 65 90 c || in_range 192 214 c || in_range 216 222 c
  then ascii_of_N (code c + 32) else c.

Definition lower (t : string) : string :=
  string_of_list_ascii (map lower_char (list_ascii_of_string t)).

(** [str.strip()] without argument. *)
Fixpoint lstrip (t : str) : str :=
  match t with
  | [] => []
  | c :: t' => if is_space c then lstrip t' else t
  end.

Fixpoint rstrip (t : str) : str :=
  match t with
  | [] => []
  | c :: t' =>
      match rstrip t' with
      | [] => if is_space c then [] else [c]
      | r => c :: r
      end
  end.

Definition strip (t : str) : str := rstrip (lstrip t).

(** Python slicing [t[a:b]] with integer bounds: negative bounds count
    from the end, and every bound is clipped to the string. *)
Definition slice_index (len i : Z) : Z :=
  if i <? 0 then Z.max (i + len) 0 else Z.min i len.

Definition slice (t : str) (a b : Z) : str :=
  let len := Z.of_nat (length t) in
  let a' := slice_index len a in
  let b' := slice_index len b in
  take (Z.to_nat (b' - a')) (drop (Z.to_nat a') t).

(** [x in y] on strings: [x] is a prefix of some suffix of [y]. *)
Fixpoint contains (x y : string) : bool :=
  match y with
  | EmptyString => String.prefix x y
  | String _ y' => String.prefix x y || contains x y'
  end.

End Text.

(** ** The fragment of [re] used by the sources *)

Module Re.
Import Text.

(** A pattern is a sequence of atoms; every pattern of the sources is one:
    a character class, a greedy starred class, a lazy starred class. *)
Inductive atom :=
| Chr (f : ascii -> bool)
| Star (f : ascii -> bool)
| LazyStar (f : ascii -> bool).

Abbreviation regex := (list atom).

(** [c+] is [cc*]. *)
Definition Plus (f : ascii -> bool) : regex := [Chr f; Star f].

(** Backtracking match anchored at the head of the text: the length of
    the match the engine finds first, greedy stars giving back one
    character at a time and lazy stars taking one at a time. *)
Fixpoint match_here (r : regex) : str -> option nat :=
  match r with
  | [] => fun _ => Some 0%nat
  | Chr f :: r' => fun t =>
      match t with
      | c :: t' => if f c then S <$> match_here r' t' else None
      | [] => None
      end
  | Star f :: r' =>
      fix star (t : str) : option nat :=
        match t with
        | c :: t' =>
            if f c then
              match star t' with
              | Some n => Some (S n)
              | None => match_here r' t
              end
            else match_here r' t
        | [] => match_here r' []
        end
  | LazyStar f :: r' =>
      fix lazy (t : str) : option nat :=
        match match_here r' t with
        | Some n => Some n
        | None =>
            match t with
            | c :: t' => if f c then S <$> lazy t' else None
            | [] => None
            end
        end
  end.

(** [re.finditer]: the non-overlapping matches from left to right, as
    (start, end) positions.  [skip] characters of the text belong to the
    match found last.  No pattern of the sources matches the empty
    string, so empty matches are not reported. *)
Fixpoint finditer_from (r : regex) (pos skip : nat) (t : str)
  : list (nat * nat) :=
  match t with
  | [] => []
  | _ :: t' =>
      match skip with
      | S k => finditer_from r (S pos) k t'
      | O =>
          match match_here r t with
          | Some (S n) => (pos, (pos + S n)%nat) :: finditer_from r (S pos) n t'
          | _ => finditer_from r (S pos) 0 t'
          end
      end
  end.

Definition finditer (r : regex) (t : str) : list (nat * nat) :=
  finditer_from r 0 0 t.

(** [re.sub] with a literal replacement. *)
Fixpoint sub_from (r : regex) (repl : str) (skip : nat) (t : str) : str :=
  match t with
  | [] => []
  | c :: t' =>
      match skip with
      | S k => sub_from r repl k t'
      | O =>
          match match_here r t with
          | Some (S n) => repl ++ sub_from r repl n t'
          | _ => c :: sub_from r repl 0 t'
          end
      end
  end.

Definition sub (r : regex) (repl : str) (t : str) : str :=
  sub_from r repl 0 t.

End Re.

(** ** The text normaliser *)

Module Normalizer.
Import Text Re.

(** [\s+] *)
Definition ws_run : regex := Plus is_space.

(** [\n\s*\n\s*\n+] *)
Definition blank_lines : regex :=
  [Chr is_newline; Star is_space; Chr is_newline; Star is_space]
  ++ Plus is_newline.

(** [\n\d+\s+3GPP.*?\n] *)
Definition page_header : regex :=
  [Chr is_newline] ++ Plus is_digit ++ Plus is_space
  ++ [Chr (is_char "3"); Chr (is_char "G"); Chr (is_char "P");
      Chr (is_char "P"); LazyStar is_dot; Chr is_newline].

(** [[^\w\s.,;:()\[\]\-/\n#|]] *)
Definition disallowed : regex := [Chr (fun c => negb (allowed c))].

(** [UnifiedDocumentProcessor.clean_text]. *)
Definition clean_text (text : str) : str :=
  let text := sub ws_run [space] text in
  let text := sub blank_lines [newline; newline] text in
  let text := sub page_header [newline] text in
  let text := sub disallowed [] text in
  strip text.

End Normalizer.

(** ** The chunker *)

Module Chunker.
Import Text Re Normalizer.

(** The values stored in metadata dictionaries. *)
Inductive scalar :=
| SStr (v : string)
| SInt (v : Z)
| SBool (v : bool).

Record DocumentChunk := {
  text : str;
  metadata : gmap string scalar;
  chunk_id : Z
}.

(** The attributes set by [UnifiedDocumentProcessor.__init__]. *)
Record config := {
  chunk_size : Z;
  chunk_overlap : Z;
  min_chunk_size : Z
}.

(** [[.!?]\s+] *)
Definition sentence_end : regex := [Chr is_terminator] ++ Plus is_space.

(** What one pass through the body of the [while] loop computed. *)
Record iteration := {
  it_start : Z;
  it_end : Z;
  it_snapped : bool;
  it_chunk : option DocumentChunk
}.

Section chunk_text.
Context (self : config) (txt : str) (meta : gmap string scalar).

(** Lines 298-307: the tentative end, moved to the last sentence end
    found in the window around it; the flag tells whether
    [sentence_endings] was non-empty. *)
Definition chunk_end (start : Z) : Z * bool :=
  let end_ := start + chunk_size self in
  if end_ <? Z.of_nat (length txt) then
    let search_start := Z.max start (end_ - 100) in
    let search_text := slice txt search_start (end_ + 100) in
    let sentence_endings := map snd (finditer sentence_end search_text) in
    match last sentence_endings with
    | Some last_sentence => (search_start + Z.of_nat last_sentence, true)
    | None => (end_, false)
    end
  else (end_, false).

(** Lines 328-330. *)
Definition next_start (start : Z) : Z :=
  let start' := fst (chunk_end start) - chunk_overlap self in
  if start' <=? 0 then 1 else start'.

(** Lines 309-325: the chunk, when it is long enough. *)
Definition make_chunk (start end_ id : Z) : option DocumentChunk :=
  let chunk_text := strip (slice txt start end_) in
  if min_chunk_size self <=? Z.of_nat (length chunk_text) then
    Some {| text := chunk_text;
            metadata :=
              <["chunk_size" := SInt (Z.of_nat (length chunk_text))]>
                (<["end_char" := SInt end_]>
                   (<["start_char" := SInt start]>
                      (<["chunk_index" := SInt id]> meta)));
            chunk_id := id |}
  else None.

Definition next_id (c : option DocumentChunk) (id : Z) : Z :=
  match c with Some _ => id + 1 | None => id end.

(** The [while] loop, [fuel] bounding the number of iterations. *)
Fixpoint chunk_loop (fuel : nat) (start id : Z)
  : option (list DocumentChunk) :=
  if start <? Z.of_nat (length txt) then
    match fuel with
    | O => None
    | S fuel' =>
        let c := make_chunk start (fst (chunk_end start)) id in
        rest ← chunk_loop fuel' (next_start start) (next_id c id);
        Some (option_list c ++ rest)
    end
  else Some [].

(** The same loop, recording every iteration. *)
Fixpoint loop_trace (fuel : nat) (start id : Z) : option (list iteration) :=
  if start <? Z.of_nat (length txt) then
    match fuel with
    | O => None
    | S fuel' =>
        let c := make_chunk start (fst (chunk_end start)) id in
        rest ← loop_trace fuel' (next_start start) (next_id c id);
        Some ({| it_start := start; it_end := fst (chunk_end start);
                 it_snapped := snd (chunk_end start); it_chunk := c |}
              :: rest)
    end
  else Some [].

End chunk_text.

(** [UnifiedDocumentProcessor.chunk_text]. *)
Definition chunk_text (self : config) (fuel : nat) (text : str)
    (metadata : gmap string scalar) : option (list DocumentChunk) :=
  chunk_loop self (clean_text text) metadata fuel 0 0.

(** Reading an integer field of a chunk's metadata. *)
Definition meta_int (key : string) (c : DocumentChunk) : option Z :=
  match metadata c !! key with
  | Some (SInt z) => Some z
  | _ => None
  end.

Definition start_char := meta_int "start_char".
Definition end_char := meta_int "end_char".

End Chunker.

(** ** The extractor registry *)

Module Extractor.
Import Text Chunker.

(** The ways of reading a legacy [.doc] file, [doc_methods]. *)
Inductive doc_method := antiword | textract | win32com.

#[global] Instance doc_method_eq_dec : EqDecision doc_method.
Proof. solve_decision. Defined.

(** An extraction backend: a black box that answers a path with its
    text or raises. *)
Inductive backend :=
| PdfReader
| DocxDocument
| DocMethod (m : doc_method).

(** Python exceptions, by class.  [load_document] raises the first
    three itself: [FileNotFoundError] is the specification's NotFound,
    [ValueError] its UnsupportedFormat, [RuntimeError] its
    BackendUnavailable.  A backend raises whatever its library raises,
    one of these three classes or any other class, given by name. *)
Inductive exn :=
| FileNotFoundError
| ValueError
| RuntimeError
| OtherError (cls : string).

(** What the probes of [_detect_processors] find in the runtime
    environment. *)
Record environment := {
  import_pypdf : bool;
  import_docx : bool;
  antiword_runs : bool;
  import_textract : bool;
  platform_win32 : bool;
  import_win32com : bool
}.

(** [self.available_processors], keys [pdf], [docx], [doc] and
    [doc_methods]. *)
Record processors := {
  pdf : bool;
  docx : bool;
  doc : bool;
  doc_methods : list doc_method
}.

Definition _detect_processors (env : environment) : processors :=
  let doc_methods :=
    (if antiword_runs env then [antiword] else [])
    ++ (if import_textract env then [textract] else [])
    ++ (if platform_win32 env
        then (if import_win32com env then [win32com] else [])
        else []) in
  {| pdf := import_pypdf env;
     docx := import_docx env;
     doc := bool_decide (0 < length doc_methods)%nat;
     doc_methods := doc_methods |}.

(** A [pathlib.Path]: its string, its final component and the suffix of
    that component. *)
Record Path := {
  path_str : string;
  name : string;
  suffix : string
}.

(** Computations that invoke backends: the backends invoked, in order,
    and the outcome. *)
Definition M (A : Type) : Type := list backend * (exn + A).

Definition ret {A} (a : A) : M A := ([], inr a).
Definition raise {A} (e : exn) : M A := ([], inl e).
Definition bind {A B} (m : M A) (k : A -> M B) : M B :=
  match m with
  | (log, inl e) => (log, inl e)
  | (log, inr a) => let '(log', r) := k a in (log ++ log', r)
  end.

#[global] Instance M_ret : MRet M := @ret.
#[global] Instance M_bind : MBind M := fun A B k m => bind m k.

Definition invoked {A} (m : M A) : list backend := fst m.
Definition outcome {A} (m : M A) : exn + A := snd m.

Section load.
(** The file system and the backends, as the registry sees them: a
    backend answers a path with its result or with the exception it
    raises. *)
Context (path_exists : Path -> bool).
Context (run_pdf run_docx : Path -> exn + (str * gmap string scalar)).
Context (run_doc : doc_method -> Path -> exn + str).

(** The call of a backend: it is logged, and what it answers, its
    result or the exception it raises, is the outcome; no call of a
    backend stands in a [try] statement that catches. *)
Definition invoke {A} (b : backend) (r : exn + A) : M A := ([b], r).

Definition _load_pdf (file_path : Path) : M (str * gmap string scalar) :=
  invoke PdfReader (run_pdf file_path).

Definition _load_docx (file_path : Path) : M (str * gmap string scalar) :=
  invoke DocxDocument (run_docx file_path).

Definition _load_doc (self : processors) (file_path : Path)
  : M (str * gmap string scalar) :=
  r ← (if bool_decide (antiword ∈ doc_methods self) then
          text ← invoke (DocMethod antiword) (run_doc antiword file_path);
          ret (text, "antiword")
        else if bool_decide (textract ∈ doc_methods self) then
          text ← invoke (DocMethod textract) (run_doc textract file_path);
          ret (text, "textract")
        else if bool_decide (win32com ∈ doc_methods self) then
          text ← invoke (DocMethod win32com) (run_doc win32com file_path);
          ret (text, "win32com")
        else raise RuntimeError) : M (str * string);
  let '(text, method) := r in
  ret (text,
       <["extraction_method" := SStr method]>
         (<["format" := SStr "doc"]>
            (<["file_path" := SStr (path_str file_path)]>
               (<["source" := SStr (name file_path)]> ∅)))).

Definition load_document (self : processors) (file_path : Path)
  : M (str * gmap string scalar) :=
  if negb (path_exists file_path) then raise FileNotFoundError
  else
    let file_ext := lower (suffix file_path) in
    if String.eqb file_ext ".pdf" then
      if negb (pdf self) then raise RuntimeError
      else _load_pdf file_path
    else if String.eqb file_ext ".docx" then
      if negb (docx self) then raise RuntimeError
      else _load_docx file_path
    else if String.eqb file_ext ".doc" then
      if negb (doc self) then raise RuntimeError
      else _load_doc self file_path
    else raise ValueError.

End load.

(** The specification's words for the legacy format: the first backend
    of the fixed preference list that was detected. *)
Definition preference : list doc_method := [antiword; textract; win32com].

Definition select_backend (self : processors) : option doc_method :=
  head (filter (fun m => m ∈ doc_methods self) preference).

(** Whether a backend was detected for a recognised extension. *)
Definition detected (self : processors) (file_ext : string) : bool :=
  if String.eqb file_ext ".pdf" then pdf self
  else if String.eqb file_ext ".docx" then docx self
  else doc self.

End Extractor.

(** ** The retriever *)

Module Retriever.
Import Text Chunker.

(** The first row of what the vector store answers: three parallel
    lists. *)
Record QueryResult := {
  documents : list string;
  metadatas : list (gmap string scalar);
  distances : list Q
}.

Record RetrievedDocument := {
  doc_text : string;
  source : scalar;
  chunk_index : scalar;
  similarity : Q
}.

Inductive error :=
| EmbeddingFailed (cause : string)
| IndexFailure (cause : string)
| TypeError.

(** A [DocumentRetriever] with its two collaborators. *)
Record DocumentRetriever := {
  generate_embedding : string -> error + list Q;
  query : list Q -> Z -> error + QueryResult;
  top_k : Z
}.

(** Truth value of an optional string. *)
Definition truthy (x : option string) : bool :=
  match x with
  | Some v => negb (String.eqb v "")
  | None => false
  end.

(** [top_k or self.top_k] *)
Definition effective_k (self : DocumentRetriever) (top_k_arg : option Z) : Z :=
  match top_k_arg with
  | Some z => if z =? 0 then top_k self else z
  | None => top_k self
  end.

Abbreviation candidate := (string * gmap string scalar * Q)%type.

(** [zip(documents, metadatas, distances)] *)
Definition candidates (r : QueryResult) : list candidate :=
  zip (zip (documents r) (metadatas r)) (distances r).

(** [source_filter and source_filter not in metadata.get('source', '')];
    [in] raises [TypeError] on a value that is not a string. *)
Definition rejected (source_filter : option string)
    (md : gmap string scalar) : error + bool :=
  if truthy source_filter then
    match default (SStr "") (md !! "source") with
    | SStr src => inr (negb (contains (default "" source_filter) src))
    | _ => inl TypeError
    end
  else inr false.

Definition to_document (c : candidate) : RetrievedDocument :=
  let '(doc, md, distance) := c in
  {| doc_text := doc;
     source := default (SStr "unknown") (md !! "source");
     chunk_index := default (SInt 0) (md !! "chunk_index");
     similarity := 1 - distance |}.

(** The [for] loop of [retrieve], lines 67-87. *)
Fixpoint collect (k : Z) (source_filter : option string)
    (cands : list candidate) (retrieved_docs : list RetrievedDocument)
  : error + list RetrievedDocument :=
  match cands with
  | [] => inr retrieved_docs
  | c :: rest =>
      match rejected source_filter (snd (fst c)) with
      | inl e => inl e
      | inr true => collect k source_filter rest retrieved_docs
      | inr false =>
          let retrieved_docs := retrieved_docs ++ [to_document c] in
          if k <=? Z.of_nat (length retrieved_docs) then inr retrieved_docs
          else collect k source_filter rest retrieved_docs
      end
  end.

(** [DocumentRetriever.retrieve]. *)
Definition retrieve (self : DocumentRetriever) (query_text : string)
    (top_k_arg : option Z) (source_filter : option string)
  : error + list RetrievedDocument :=
  let k := effective_k self top_k_arg in
  match generate_embedding self query_text with
  | inl e => inl e
  | inr query_embedding =>
      match query self query_embedding
              (if truthy source_filter then k * 2 else k) with
      | inl e => inl e
      | inr results => collect k source_filter (candidates results) []
      end
  end.

End Retriever.

(** ** Functions used to state and prove the properties *)

Module Aux.
Import Text Re Normalizer Chunker.

(** Length of the longest prefix whose characters are all in a class. *)
Fixpoint span (f : ascii -> bool) (t : str) : nat :=
  match t with
  | c :: t' => if f c then S (span f t') else O
  | [] => O
  end.

(** The text does not begin with a white space character. *)
Definition starts_nonspace (t : str) : Prop :=
  match t with
  | c :: _ => is_space c = false
  | [] => True
  end.

(** Every white space character is a single, isolated space. *)
Fixpoint single_spaced (t : str) : Prop :=
  match t with
  | [] => True
  | c :: t' =>
      (is_space c = true -> c = space /\ starts_nonspace t')
      /\ single_spaced t'
  end.

(** Two spaces stand next to each other somewhere in the text. *)
Fixpoint double_space (t : str) : bool :=
  match t with
  | a :: t' =>
      match t' with
      | b :: _ => Ascii.eqb a space && Ascii.eqb b space || double_space t'
      | [] => false
      end
  | [] => false
  end.

(** The end of the last sentence end in a window, computed from the
    right: a terminator followed by at least one white space character,
    the match running over the whole white space run. *)
Fixpoint last_end (w : str) : option nat :=
  match w with
  | [] => None
  | c :: w' =>
      match last_end w' with
      | Some e => Some (S e)
      | None =>
          if is_terminator c && (0 <? span is_space w')%nat
          then Some (S (span is_space w'))
          else None
      end
  end.

(** The window that [chunk_text] searches for a sentence end. *)
Definition window (self : config) (txt : str) (start : Z) : str :=
  slice txt (Z.max start (start + chunk_size self - 100))
    (start + chunk_size self + 100).

(** [n] copies of a text, Python's [x * n]. *)
Fixpoint repeat_str (x : str) (n : nat) : str :=
  match n with
  | O => []
  | S k => x ++ repeat_str x k
  end.

(** A configuration and a text on which the cursor of [chunk_text]
    stops advancing: the only sentence end lies five characters after
    the cursor. *)
Definition stuck_config : config :=
  {| chunk_size := 10; chunk_overlap := 5; min_chunk_size := 1 |}.
Definition stuck_text : str := s "aaaa. aaaaaaaaaa".

(** An overlap as large as the chunk size. *)
Definition full_overlap_config : config :=
  {| chunk_size := 2; chunk_overlap := 2; min_chunk_size := 1 |}.
Definition plain_text : str := s "abcdef".

(** The configuration and text of the test suite's basic scenario. *)
Definition test_config : config :=
  {| chunk_size := 50; chunk_overlap := 10; min_chunk_size := 20 |}.
Definition test_text : str := repeat_str (s "This is a test sentence. ") 10.
Definition test_meta : gmap string scalar := {["source" := SStr "test.pdf"]}.

(** A text without sentence ends, cut in steps of seven characters. *)
Definition plain_config : config :=
  {| chunk_size := 10; chunk_overlap := 3; min_chunk_size := 1 |}.
Definition long_word : str := repeat_str (s "a") 30.

(** Whether the loop of [retrieve] appends a candidate. *)
Definition accepted (source_filter : option string)
    (c : Retriever.candidate) : bool :=
  match Retriever.rejected source_filter (snd (fst c)) with
  | inr false => true
  | _ => false
  end.

(** A vector store with two records of one document, and a retriever
    over it with the default [top_k] of the constructor. *)
Definition two_records : Retriever.QueryResult :=
  {| Retriever.documents := ["5G system architecture"; "Network functions"];
     Retriever.metadatas :=
       [ {["source" := SStr "ts_23501.pdf"; "chunk_index" := SInt 0]};
         {["source" := SStr "ts_23501.pdf"; "chunk_index" := SInt 1]} ];
     Retriever.distances := [(1 # 4)%Q; (1 # 2)%Q] |}.

Definition demo_retriever : Retriever.DocumentRetriever :=
  {| Retriever.generate_embedding := fun _ => inr [(1 # 1)%Q];
     Retriever.query := fun _ _ => inr two_records;
     Retriever.top_k := 5 |}.

(** The number of documents of an answer of [retrieve]. *)
Definition answer_length (r : Retriever.error + list Retriever.RetrievedDocument)
  : option nat :=
  match r with
  | inr docs => Some (length docs)
  | inl _ => None
  end.

(** A registry with every backend detected, and two files that exist. *)
Definition all_detected : Extractor.processors :=
  {| Extractor.pdf := true; Extractor.docx := true; Extractor.doc := true;
     Extractor.doc_methods := [Extractor.antiword; Extractor.textract] |}.

Definition word_file : Extractor.Path :=
  {| Extractor.path_str := "specs/TS23501.docx";
     Extractor.name := "TS23501.docx"; Extractor.suffix := ".docx" |}.

Definition legacy_file : Extractor.Path :=
  {| Extractor.path_str := "specs/TS23501.doc";
     Extractor.name := "TS23501.doc"; Extractor.suffix := ".doc" |}.

(** A page of line-structured text with a page header line: the page
    number followed by the marker of the document series. *)
Definition page_header_doc : str :=
  s "Intro text." ++ [newline] ++ s "12 3GPP TS 23.501 V16" ++ [newline]
  ++ s "Body text.".

End Aux.

(** ** Processing documents and directories *)

Module Batch.
Import Text Chunker Extractor.

(** A [UnifiedDocumentProcessor]: the chunking attributes and the
    processors detected by the constructor. *)
Record UnifiedDocumentProcessor := {
  settings : config;
  available_processors : processors
}.

Section process.
Context (path_exists : Path -> bool).
Context (run_pdf run_docx : Path -> exn + (str * gmap string scalar)).
Context (run_doc : doc_method -> Path -> exn + str).
(** [directory.glob(pattern)], as the file system answers it. *)
Context (glob : Path -> string -> list Path).
Context (self : UnifiedDocumentProcessor).

(** [process_document]: load, then chunk.  [None] when the chunking
    loop does not return within the fuel. *)
Definition process_document (fuel : nat) (file_path : Path)
  : option (M (list DocumentChunk)) :=
  match load_document path_exists run_pdf run_docx run_doc
          (available_processors self) file_path with
  | (log, inl e) => Some (log, inl e)
  | (log, inr (text, metadata)) =>
      chunks ← chunk_text (settings self) fuel text metadata;
      Some (log, inr chunks)
  end.

(** The [for] loop of [process_directory]: any exception of a document
    is caught, the name of the file recorded, and the loop goes on. *)
Fixpoint process_files (fuel : nat) (files : list Path)
    (log : list backend) (all_chunks : list DocumentChunk)
    (failed_files : list string)
  : option (list backend * (list DocumentChunk * list string)) :=
  match files with
  | [] => Some (log, (all_chunks, failed_files))
  | doc_file :: rest =>
      r ← process_document fuel doc_file;
      match r with
      | (log', inr chunks) =>
          process_files fuel rest (log ++ log') (all_chunks ++ chunks)
            failed_files
      | (log', inl _) =>
          process_files fuel rest (log ++ log') all_chunks
            (failed_files ++ [name doc_file])
      end
  end.

(** The files that [process_directory] looks for. *)
Definition all_files (directory : Path) : list Path :=
  let pdf_files := glob directory "*.pdf" in
  let docx_files := glob directory "*.docx" in
  let doc_files :=
    List.filter (fun f => String.eqb (lower (suffix f)) ".doc")
      (glob directory "*.doc") in
  pdf_files ++ docx_files ++ doc_files.

(** [process_directory]; beside the chunks it returns, the names of the
    failed files, which the source only logs. *)
Definition process_directory (fuel : nat) (directory : Path)
  : option (M (list DocumentChunk * list string)) :=
  if negb (path_exists directory) then Some (raise FileNotFoundError)
  else
    match all_files directory with
    | [] => Some (ret ([], []))
    | files =>
        r ← process_files fuel files [] [] [];
        Some (fst r, inr (snd r))
    end.

End process.

End Batch.

(** ** Embedding the chunks and storing them *)

Module Store.
Import Text Chunker.

(** The values of a chunk dictionary, as [to_dict] and [json.load] give
    them, and with the embedding added. *)
Inductive value :=
| VStr (v : string)
| VInt (v : Z)
| VVec (v : list Q)
| VDict (v : gmap string scalar).

(** Python exceptions: those that the two functions raise themselves,
    and any other class, given by name, for what the model or the
    collection raises. *)
Inductive pyerr :=
| KeyError (key : string)
| IndexError
| TypeError
| AttributeError
| OtherError (cls : string).

(** [DocumentChunk.to_dict]. *)
Definition to_dict (c : DocumentChunk) : gmap string value :=
  <["text" := VStr (string_of_list_ascii (text c))]>
    (<["metadata" := VDict (metadata c)]>
       (<["chunk_id" := VInt (chunk_id c)]> ∅)).

(** [chunk[key]] *)
Definition getitem (chunk : gmap string value) (key : string)
  : pyerr + value :=
  match chunk !! key with
  | Some v => inr v
  | None => inl (KeyError key)
  end.

(** [len(v)] *)
Definition len (v : value) : pyerr + Z :=
  match v with
  | VStr x => inr (Z.of_nat (String.length x))
  | VVec x => inr (Z.of_nat (length x))
  | VDict x => inr (Z.of_nat (size x))
  | VInt _ => inl TypeError
  end.

(** A comprehension or loop body that may raise, run over a list with
    the position of each element; the first exception ends it. *)
Fixpoint map_from {A B : Type} (f : nat -> A -> pyerr + B) (i : nat)
    (l : list A) : pyerr + list B :=
  match l with
  | [] => inr []
  | a :: l' =>
      match f i a with
      | inl e => inl e
      | inr b =>
          match map_from f (S i) l' with
          | inl e => inl e
          | inr bs => inr (b :: bs)
          end
      end
  end.

Section embed.
(** [self.model.encode]: a black box that answers the texts with their
    vectors or raises. *)
Context (encode : list value -> pyerr + list (list Q)).

(** [LocalEmbeddingGenerator.embed_chunks]; the dimension of the first
    embedded chunk is formatted for the log, whatever the log level. *)
Definition embed_chunks (chunks : list (gmap string value))
  : pyerr + list (gmap string value) :=
  match map_from (fun _ chunk => getitem chunk "text") 0 chunks with
  | inl e => inl e
  | inr texts =>
      match encode texts with
      | inl e => inl e
      | inr embeddings =>
          let embedded_chunks :=
            zip_with (fun chunk embedding =>
                        <["embedding" := VVec embedding]> chunk)
              chunks embeddings in
          match embedded_chunks with
          | [] => inl IndexError
          | first :: _ =>
              match getitem first "embedding" with
              | inl e => inl e
              | inr v =>
                  match len v with
                  | inl e => inl e
                  | inr _ => inr embedded_chunks
                  end
              end
          end
      end
  end.

End embed.

(** What [add_chunks] hands to the collection for one chunk. *)
Record record := {
  id : string;
  embedding : value;
  document : value;
  stored_metadata : gmap string scalar
}.

(** The body of the first loop of [VectorStore.add_chunks]. *)
Definition make_record (i : nat) (chunk : gmap string value)
  : pyerr + record :=
  let chunk_id := ("id_" +:+ pretty i)%string in
  match getitem chunk "embedding" with
  | inl e => inl e
  | inr emb =>
      match getitem chunk "text" with
      | inl e => inl e
      | inr text =>
          match getitem chunk "metadata" with
          | inl e => inl e
          | inr (VDict md) =>
              match len text with
              | inl e => inl e
              | inr n =>
                  inr {| id := chunk_id;
                         embedding := emb;
                         document := text;
                         stored_metadata :=
                           <["source" :=
                               default (SStr "unknown") (md !! "source")]>
                             (<["chunk_index" :=
                                  default (SInt (Z.of_nat i))
                                    (md !! "chunk_index")]>
                                (<["chunk_size" :=
                                     default (SInt n) (md !! "chunk_size")]>
                                   ∅)) |}
              end
          | inr _ => inl AttributeError
          end
      end
  end.

Definition batch_size : nat := 100.

(** [range(0, n, batch_size)] *)
Definition batch_starts (n : nat) : list nat :=
  (fun j => j * batch_size)%nat <$> seq 0 ((n + batch_size - 1) / batch_size).

(** The slices [l[i:batch_end]] of the second loop. *)
Definition batches {A : Type} (l : list A) : list (list A) :=
  (fun i =>
     let batch_end := Nat.min (i + batch_size) (length l) in
     take (batch_end - i) (drop i l))
  <$> batch_starts (length l).

(** A run of [add_chunks]: the batches handed to [collection.add], in
    the order of the calls, the collection it leaves and its outcome. *)
Record run (collection : Type) := {
  handed : list (list record);
  after : collection;
  result : pyerr + unit
}.

Arguments handed {collection} _.
Arguments after {collection} _.
Arguments result {collection} _.

Section add.
(** [self.collection.add], called with the records of one batch (the
    four parallel lists of the source, zipped): a black box that leaves
    the collection in some state and returns or raises.  What it does
    with an identifier that the collection already holds is its own
    affair. *)
Context {collection : Type}.
Context (collection_add : collection -> list record
                          -> collection * (pyerr + unit)).

(** The second loop: one call for each batch; an exception of a call
    ends the loop and is the outcome. *)
Fixpoint add_batches (coll : collection) (todo made : list (list record))
  : run collection :=
  match todo with
  | [] => {| handed := made; after := coll; result := inr tt |}
  | batch :: rest =>
      match collection_add coll batch with
      | (coll', inl e) =>
          {| handed := made ++ [batch]; after := coll'; result := inl e |}
      | (coll', inr _) => add_batches coll' rest (made ++ [batch])
      end
  end.

(** [VectorStore.add_chunks] on the collection [coll]. *)
Definition add_chunks (coll : collection) (chunks : list (gmap string value))
  : run collection :=
  match map_from make_record 0 chunks with
  | inl e => {| handed := []; after := coll; result := inl e |}
  | inr records => add_batches coll (batches records) []
  end.

End add.

End Store.

(** ** Further functions used to state the properties *)

Module Aux2.
Import Text Re Normalizer Chunker Extractor.

(** The text does not end with a white space character. *)
Fixpoint ends_nonspace (t : str) : Prop :=
  match t with
  | [] => True
  | [c] => is_space c = false
  | _ :: t' => ends_nonspace t'
  end.

(** A character that [clean_text] removes wherever it stands alone:
    white space, or outside the allow-list. *)
Definition removable (c : ascii) : bool := is_space c || negb (allowed c).

(** The keys that [chunk_text] sets in the metadata of a chunk. *)
Definition chunk_keys : list string :=
  ["chunk_index"; "start_char"; "end_char"; "chunk_size"].

(** The name under which [_load_doc] records a method. *)
Definition method_name (m : doc_method) : string :=
  match m with
  | antiword => "antiword"
  | textract => "textract"
  | win32com => "win32com"
  end.




(** An environment with antiword and textract, not on Windows. *)
Definition linux_env : environment :=
  {| import_pypdf := true; import_docx := true; antiword_runs := true;
     import_textract := true; platform_win32 := false;
     import_win32com := false |}.

Definition old_doc : Path :=
  {| path_str := "specs/old.doc"; name := "old.doc"; suffix := ".doc" |}.

(** The chunks that a processed document adds to the batch. *)
Definition doc_chunks (r : M (list DocumentChunk)) : list DocumentChunk :=
  match outcome r with
  | inr chunks => chunks
  | inl _ => []
  end.

(** The names of the files whose processing failed. *)
Definition failed_names (files : list Path)
    (rs : list (M (list DocumentChunk))) : list string :=
  omap (fun fr : Path * M (list DocumentChunk) =>
          match outcome (snd fr) with
          | inl _ => Some (name (fst fr))
          | inr _ => None
          end)
    (zip files rs).

(** A directory with a PDF file that its backend cannot read and a
    legacy file that antiword reads. *)
Definition specs_dir : Path :=
  {| path_str := "specs"; name := "specs"; suffix := "" |}.

Definition bad_pdf : Path :=
  {| path_str := "specs/bad.pdf"; name := "bad.pdf"; suffix := ".pdf" |}.

Definition demo_glob (directory : Path) (pattern : string) : list Path :=
  if String.eqb pattern "*.pdf" then [bad_pdf]
  else if String.eqb pattern "*.doc" then [old_doc]
  else [].

Definition demo_processor : Batch.UnifiedDocumentProcessor :=
  {| Batch.settings :=
       {| chunk_size := 10; chunk_overlap := 3; min_chunk_size := 1 |};
     Batch.available_processors := _detect_processors linux_env |}.

Definition demo_run_pdf (p : Path) : exn + (str * gmap string scalar) :=
  inl (OtherError "PdfReadError").

Definition demo_run_doc (m : doc_method) (p : Path) : exn + str :=
  inr (s "Legacy text of the specification").

(** The texts that [embed_chunks] hands to the model. *)
Definition texts_of (chunks : list (gmap string Store.value))
  : list Store.value :=
  omap (fun c : gmap string Store.value => c !! "text") chunks.

(** What the vector store holds for the chunk at position [i] of a
    document's chunk list. *)
Definition stored_id (i : nat) : string := ("id_" +:+ pretty i)%string.

Definition stored_meta (document_meta : gmap string scalar) (i : nat)
    (c : DocumentChunk) : gmap string scalar :=
  <["source" := default (SStr "unknown") (document_meta !! "source")]>
    (<["chunk_index" := SInt (Z.of_nat i)]>
       (<["chunk_size" := SInt (Z.of_nat (length (text c)))]> ∅)).

(** A model that gives every text the same vector. *)
Definition demo_encode (texts : list Store.value)
  : Store.pyerr + list (list Q) :=
  inr (map (fun _ => [(1 # 2)%Q; (1 # 3)%Q]) texts).

(** The collection after the batches [made] have been handed to it one
    after the other. *)
Definition collection_after {collection : Type}
    (collection_add : collection -> list Store.record
                      -> collection * (Store.pyerr + unit))
    (coll : collection) (made : list (list Store.record)) : collection :=
  foldl (fun c batch => fst (collection_add c batch)) coll made.

(** A collection that keeps the records in a list and accepts every
    call, and one that refuses every call. *)
Definition demo_add (coll batch : list Store.record)
  : list Store.record * (Store.pyerr + unit) :=
  (coll ++ batch, inr tt).

Definition refusing_add (coll batch : list Store.record)
  : list Store.record * (Store.pyerr + unit) :=
  (coll, inl (Store.OtherError "InvalidDimensionException")).

(** Two chunk dictionaries as [json.load] gives them, and the same with
    an embedding. *)
Definition demo_dicts : list (gmap string Store.value) :=
  [ Store.to_dict
      {| text := s "Release 16"; metadata := Aux.test_meta; chunk_id := 0 |};
    Store.to_dict
      {| text := s "clause 5.2"; metadata := Aux.test_meta; chunk_id := 1 |} ].

Definition demo_embedded : list (gmap string Store.value) :=
  (fun d : gmap string Store.value =>
     <["embedding" := Store.VVec [(1 # 2)%Q; (1 # 3)%Q]]> d)
  <$> demo_dicts.

(** Whether an answer is a result and not an exception. *)
Definition succeeds {E A : Type} (r : E + A) : bool :=
  match r with
  | inr _ => true
  | inl _ => false
  end.

End Aux2.

(** ** Facts about the regex engine *)

Module ReFacts.
Import Text Re Aux.

Lemma match_here_star_end (f : ascii -> bool) (t : str) :
  match_here [Star f] t = Some (span f t).
Proof.
  induction t as [|c t IH]; simpl; [done|].
  destruct (f c); [|done].
  simpl in IH. by rewrite IH.
Qed.

Lemma match_here_plus_end (f : ascii -> bool) (c : ascii) (t : str) :
  match_here (Plus f) (c :: t) = if f c then Some (S (span f t)) else None.
Proof.
  unfold Plus. change (match_here [Chr f; Star f] (c :: t))
    with (if f c then S <$> match_here [Star f] t else None).
  destruct (f c); [|done]. by rewrite match_here_star_end.
Qed.

Lemma match_here_chr_fail (f : ascii -> bool) (r : regex) (c : ascii) (t : str) :
  f c = false -> match_here (Chr f :: r) (c :: t) = None.
Proof. intros H. simpl. by rewrite H. Qed.

(** A pattern that begins with a character class never matches the
    empty string. *)
Lemma match_here_chr_nonempty (f : ascii -> bool) (r : regex) (t : str) :
  match_here (Chr f :: r) t <> Some O.
Proof.
  destruct t as [|c t]; simpl; [done|].
  destruct (f c); [|done]. by destruct (match_here r t).
Qed.

(** Substitution keeps whatever holds of the text and of the
    replacement. *)
Lemma sub_from_Forall (P : ascii -> Prop) (r : regex) (repl : str) :
  Forall P repl ->
  forall (t : str) (skip : nat), Forall P t -> Forall P (sub_from r repl skip t).
Proof.
  intros Hrepl t. induction t as [|c t IH]; intros skip Ht; simpl; [done|].
  inversion Ht as [|? ? Hc Ht']; subst.
  destruct skip as [|k]; [|by apply IH].
  destruct (match_here r (c :: t)) as [[|n]|].
  - constructor; [done|by apply IH].
  - apply Forall_app; split; [done|by apply IH].
  - constructor; [done|by apply IH].
Qed.

(** A pattern whose first character occurs nowhere leaves the text as it
    was. *)
Lemma sub_from_absent (f : ascii -> bool) (r : regex) (repl t : str) :
  Forall (fun c => f c = false) t ->
  sub_from (Chr f :: r) repl 0 t = t.
Proof.
  induction t as [|c t IH]; intros Ht; [done|].
  inversion Ht as [|? ? Hc Ht']; subst.
  cbn [sub_from]. rewrite (match_here_chr_fail f r c t Hc).
  by rewrite IH.
Qed.

Lemma finditer_from_absent (f : ascii -> bool) (r : regex) (t : str) (pos : nat) :
  Forall (fun c => f c = false) t ->
  finditer_from (Chr f :: r) pos 0 t = [].
Proof.
  revert pos. induction t as [|c t IH]; intros pos Ht; [done|].
  inversion Ht as [|? ? Hc Ht']; subst.
  cbn [finditer_from]. rewrite (match_here_chr_fail f r c t Hc).
  by apply IH.
Qed.

End ReFacts.

(** ** The normaliser: what [clean_text] computes *)

Module NormalizerFacts.
Import Text Re Normalizer Aux ReFacts.

Lemma space_is_space : is_space space = true.
Proof. reflexivity. Qed.

Lemma newline_is_space (c : ascii) : is_newline c = true -> is_space c = true.
Proof.
  unfold is_newline, is_char. intros H.
  apply Ascii.eqb_eq in H. by subst c.
Qed.

Lemma newline_not_space (c : ascii) : is_newline c = true -> c <> space.
Proof.
  unfold is_newline, is_char. intros H.
  apply Ascii.eqb_eq in H. by subst c.
Qed.

Lemma terminator_not_space (c : ascii) :
  is_terminator c = true -> is_space c = false.
Proof.
  unfold is_terminator, is_char. intros H.
  repeat (apply orb_prop in H; destruct H as [H|H]);
    apply Ascii.eqb_eq in H; by subst c.
Qed.

Lemma space_allowed : allowed space = true.
Proof. reflexivity. Qed.

(** After the first substitution white space comes as single spaces. *)
Lemma collapse_single_spaced (t : str) (skip : nat) :
  skip = O \/ skip = span is_space t ->
  single_spaced (sub_from ws_run [space] skip t)
  /\ (skip = span is_space t ->
      starts_nonspace (sub_from ws_run [space] skip t)).
Proof.
  revert skip. induction t as [|c t IH]; intros skip Hskip; [done|].
  cbn [sub_from span]. destruct skip as [|k].
  - unfold ws_run. rewrite match_here_plus_end.
    destruct (is_space c) eqn:Hc.
    + destruct (IH (span is_space t)) as [Hs Hn]; [by right|].
      split; [|done]. simpl. split; [|done].
      intros _. split; [done|by apply Hn].
    + destruct (IH O) as [Hs _]; [by left|].
      split; [|done]. simpl. split; [|done]. by rewrite Hc.
  - destruct Hskip as [|Hk]; [done|]. cbn [span] in Hk. revert Hk.
    destruct (is_space c); [|done].
    intros [= ->]. destruct (IH (span is_space t)) as [Hs Hn]; [by right|].
    split; [done|]. intros _. by apply Hn.
Qed.

Lemma single_spaced_no_newline (t : str) :
  single_spaced t -> Forall (fun c => is_newline c = false) t.
Proof.
  induction t as [|c t IH]; intros Hs; [done|].
  destruct Hs as [Hc Ht]. constructor; [|by apply IH].
  destruct (is_newline c) eqn:Hn; [|done].
  destruct (Hc (newline_is_space c Hn)) as [-> _]. done.
Qed.

Lemma starts_nonspace_span (t : str) :
  starts_nonspace t -> span is_space t = O.
Proof. destruct t as [|c t]; simpl; [done|]. by intros ->. Qed.

(** On single-spaced text the first substitution changes nothing. *)
Lemma collapse_fixed (t : str) :
  single_spaced t -> sub ws_run [space] t = t.
Proof.
  unfold sub. induction t as [|c t IH]; intros Hs; [done|].
  destruct Hs as [Hc Ht]. cbn [sub_from].
  unfold ws_run. rewrite match_here_plus_end.
  destruct (is_space c) eqn:Hsp.
  - destruct (Hc eq_refl) as [-> Hn].
    rewrite (starts_nonspace_span t Hn). simpl.
    f_equal. by apply IH.
  - f_equal. by apply IH.
Qed.

(** The two substitutions anchored on a newline never fire. *)
Lemma newline_subs_dead (t : str) :
  let u := sub ws_run [space] t in
  sub blank_lines [newline; newline] u = u
  /\ sub page_header [newline] u = u
  /\ finditer page_header u = [].
Proof.
  intros u.
  assert (Hn : Forall (fun c => is_newline c = false) u).
  { apply single_spaced_no_newline.
    apply (collapse_single_spaced t O). by left. }
  repeat split.
  - by apply sub_from_absent.
  - by apply sub_from_absent.
  - by apply finditer_from_absent.
Qed.

Lemma match_here_disallowed (c : ascii) (t : str) :
  match_here disallowed (c :: t) = if allowed c then None else Some 1%nat.
Proof. unfold disallowed. simpl. by destruct (allowed c). Qed.

Lemma sub_disallowed_filter (t : str) :
  sub disallowed [] t = List.filter allowed t.
Proof.
  unfold sub. induction t as [|c t IH]; [done|].
  cbn [sub_from List.filter]. rewrite match_here_disallowed.
  destruct (allowed c); simpl; by rewrite IH.
Qed.

(** [clean_text] is: collapse white space, delete the characters that
    are not allowed, strip. *)
Lemma clean_text_eq (t : str) :
  clean_text t = strip (List.filter allowed (sub ws_run [space] t)).
Proof.
  unfold clean_text.
  destruct (newline_subs_dead t) as (-> & -> & _).
  by rewrite sub_disallowed_filter.
Qed.

Lemma filter_allowed_id (t : str) :
  Forall (fun c => allowed c = true) t -> List.filter allowed t = t.
Proof.
  induction t as [|c t IH]; intros H; [done|].
  inversion H; subst. simpl. rewrite H2. f_equal. by apply IH.
Qed.

(** *** [strip] *)

Lemma rstrip_head (t : str) (c : ascii) (r : str) :
  rstrip t = c :: r -> exists t', t = c :: t'.
Proof.
  destruct t as [|a t]; simpl; [done|].
  destruct (rstrip t).
  - destruct (is_space a); [done|]. intros [= -> _]. by eexists.
  - intros [= -> _]. by eexists.
Qed.

Lemma rstrip_starts_nonspace (t : str) :
  starts_nonspace t -> starts_nonspace (rstrip t).
Proof.
  destruct t as [|a t]; simpl; [done|]. intros Ha.
  destruct (rstrip t); [by rewrite Ha|done].
Qed.

Lemma rstrip_idemp (t : str) : rstrip (rstrip t) = rstrip t.
Proof.
  induction t as [|c t IH]; [done|]. simpl.
  destruct (rstrip t) as [|a r] eqn:Hr.
  - destruct (is_space c) eqn:Hc; [done|]. simpl. by rewrite Hc.
  - change (rstrip (c :: a :: r))
      with (match rstrip (a :: r) with
            | [] => if is_space c then [] else [c]
            | a' :: r' => c :: a' :: r'
            end).
    by rewrite IH.
Qed.

Lemma lstrip_starts_nonspace (t : str) : starts_nonspace (lstrip t).
Proof.
  induction t as [|c t IH]; [done|]. simpl.
  destruct (is_space c) eqn:Hc; [done|]. simpl. done.
Qed.

Lemma lstrip_fixed (t : str) : starts_nonspace t -> lstrip t = t.
Proof. destruct t as [|c t]; simpl; [done|]. by intros ->. Qed.

Lemma strip_idemp (t : str) : strip (strip t) = strip t.
Proof.
  unfold strip. rewrite (lstrip_fixed (rstrip (lstrip t))).
  - apply rstrip_idemp.
  - apply rstrip_starts_nonspace, lstrip_starts_nonspace.
Qed.

Lemma lstrip_single_spaced (t : str) :
  single_spaced t -> single_spaced (lstrip t).
Proof.
  induction t as [|c t IH]; [done|]. intros [Hc Ht].
  cbn [lstrip]. destruct (is_space c) eqn:Hsp; [by apply IH|].
  split; [|done]. by rewrite Hsp.
Qed.

Lemma rstrip_single_spaced (t : str) :
  single_spaced t -> single_spaced (rstrip t).
Proof.
  induction t as [|c t IH]; [done|]. intros [Hc Ht]. simpl.
  destruct (rstrip t) as [|a r] eqn:Hr.
  - destruct (is_space c) eqn:Hsp; [done|]. simpl. split; [|done].
    by rewrite Hsp.
  - split; [|by apply IH].
    intros Hsp. destruct (Hc Hsp) as [-> Hn]. split; [done|].
    destruct (rstrip_head t a r Hr) as [t' ->]. exact Hn.
Qed.

Lemma strip_single_spaced (t : str) :
  single_spaced t -> single_spaced (strip t).
Proof. intros H. by apply rstrip_single_spaced, lstrip_single_spaced. Qed.

Lemma lstrip_Forall (P : ascii -> Prop) (t : str) :
  Forall P t -> Forall P (lstrip t).
Proof.
  induction t as [|c t IH]; [done|]. intros H. simpl.
  destruct (is_space c); [|done]. inversion H; subst. by apply IH.
Qed.

Lemma rstrip_Forall (P : ascii -> Prop) (t : str) :
  Forall P t -> Forall P (rstrip t).
Proof.
  induction t as [|c t IH]; [done|]. intros H. inversion H; subst. simpl.
  destruct (rstrip t) as [|a r].
  - destruct (is_space c); by repeat constructor.
  - constructor; [done|by apply IH].
Qed.

Lemma strip_Forall (P : ascii -> Prop) (t : str) :
  Forall P t -> Forall P (strip t).
Proof. intros H. by apply rstrip_Forall, lstrip_Forall. Qed.

Lemma filter_allowed_Forall (t : str) :
  Forall (fun c => allowed c = true) (List.filter allowed t).
Proof.
  induction t as [|c t IH]; [done|]. simpl.
  destruct (allowed c) eqn:Hc; [by constructor|done].
Qed.

(** The output of [clean_text] holds allowed characters only. *)
Lemma clean_text_allowed (t : str) :
  Forall (fun c => allowed c = true) (clean_text t).
Proof. rewrite clean_text_eq. apply strip_Forall, filter_allowed_Forall. Qed.

(** A second run over the output of a run on allowed characters finds
    single spaces, allowed characters and no white space at either end. *)
Lemma clean_twice_allowed (x : str) :
  Forall (fun c => allowed c = true) x ->
  clean_text (clean_text x) = clean_text x.
Proof.
  intros Hx. rewrite !clean_text_eq.
  set (u := sub ws_run [space] x).
  assert (Hu : Forall (fun c => allowed c = true) u).
  { apply sub_from_Forall; [|done]. by repeat constructor. }
  assert (Hs : single_spaced u).
  { apply (collapse_single_spaced x O). by left. }
  rewrite (filter_allowed_id u Hu).
  rewrite (collapse_fixed (strip u)) by by apply strip_single_spaced.
  rewrite (filter_allowed_id (strip u)) by by apply strip_Forall.
  apply strip_idemp.
Qed.

Lemma single_spaced_only_space (t : str) :
  single_spaced t -> Forall (fun c => is_space c = true -> c = space) t.
Proof.
  induction t as [|c t IH]; intros Hs; [done|]. destruct Hs as [Hc Ht].
  constructor; [|by apply IH]. intros Hsp. by destruct (Hc Hsp).
Qed.

Lemma filter_Forall {A : Type} (P : A -> Prop) (f : A -> bool) (l : list A) :
  Forall P l -> Forall P (List.filter f l).
Proof.
  induction 1 as [|a l Ha _ IH]; [done|]. simpl.
  destruct (f a); [by constructor|done].
Qed.

(** The only white space character in the output of [clean_text] is
    the space. *)
Lemma clean_text_only_space (t : str) :
  Forall (fun c => is_space c = true -> c = space) (clean_text t).
Proof.
  rewrite clean_text_eq.
  apply strip_Forall, filter_Forall, single_spaced_only_space.
  apply (collapse_single_spaced t O). by left.
Qed.

Lemma single_spaced_double_space (t : str) :
  single_spaced t -> double_space t = false.
Proof.
  induction t as [|a t IH]; [done|]. intros [Ha Ht].
  cbn [double_space]. destruct t as [|b t']; [done|].
  rewrite (IH Ht), orb_false_r.
  destruct (Ascii.eqb_spec a space) as [->|]; [|done].
  destruct (Ascii.eqb_spec b space) as [->|]; [|done].
  by destruct (Ha space_is_space) as [_ Hb].
Qed.

Lemma double_space_single_spaced (t : str) :
  Forall (fun c => is_space c = true -> c = space) t ->
  double_space t = false -> single_spaced t.
Proof.
  induction t as [|a t IH]; [done|]. intros Hall Hd.
  inversion Hall as [|? ? Ha Ht]; subst. cbn [double_space] in Hd.
  destruct t as [|b t']; [by split; [intros H; split; [apply Ha|]|]|].
  apply orb_false_elim in Hd as [Hab Hd]. split; [|by apply IH].
  intros Hsp. split; [by apply Ha|]. simpl.
  destruct (is_space b) eqn:Hb; [|done].
  inversion Ht as [|? ? Hb' _]; subst.
  rewrite (Ha Hsp), (Hb' Hb) in Hab. done.
Qed.

(** A second run changes the output of the first exactly when two
    spaces stand next to each other in it. *)
Lemma clean_twice_iff (x : str) :
  clean_text (clean_text x) = clean_text x
  <-> double_space (clean_text x) = false.
Proof.
  pose proof (clean_text_allowed x) as Hy.
  pose proof (clean_text_only_space x) as Hsp.
  assert (Hstrip : strip (clean_text x) = clean_text x)
    by (rewrite clean_text_eq; apply strip_idemp).
  revert Hy Hsp Hstrip. generalize (clean_text x). intros y Hy Hsp Hstrip.
  split.
  - intros Heq. apply single_spaced_double_space. rewrite <- Heq.
    rewrite clean_text_eq.
    apply strip_single_spaced.
    rewrite filter_allowed_id.
    + apply (collapse_single_spaced y O). by left.
    + apply sub_from_Forall; [by repeat constructor|done].
  - intros Hd. rewrite clean_text_eq.
    rewrite (collapse_fixed y) by by apply double_space_single_spaced.
    by rewrite (filter_allowed_id y Hy).
Qed.

End NormalizerFacts.

(** ** The normaliser: the properties of the specification *)

Module NormalizerClaims.
Import Text Re Normalizer Aux ReFacts NormalizerFacts.

(** The engine on the patterns of [clean_text]: runs of blank lines
    become one blank line, the greedy stars giving back what the rest of
    the pattern needs. *)
Example blank_lines_collapse :
  sub blank_lines [newline; newline]
    (s "a" ++ repeat_str [newline] 5 ++ s "  b" ++ repeat_str [newline] 2
     ++ s "c" ++ repeat_str [newline] 3 ++ s "d")
  = s "a" ++ repeat_str [newline] 2 ++ s "  b" ++ repeat_str [newline] 2
    ++ s "c" ++ repeat_str [newline] 2 ++ s "d".
Proof. reflexivity. Qed.

Example clean_text_whitespace :
  clean_text (s "Hello    world" ++ repeat_str [newline] 4
              ++ s "This  is   a    test")
  = s "Hello world This is a test".
Proof. reflexivity. Qed.

(** The header pattern does remove the line from line-structured text. *)
Example page_header_matches_lines :
  sub page_header [newline] page_header_doc
  = s "Intro text." ++ [newline] ++ s "Body text.".
Proof. reflexivity. Qed.

(** Whatever the raw text, the header pattern finds nothing to remove in
    [clean_text]: the white space collapse that runs before it has
    replaced every newline. *)
Lemma page_header_never_fires (raw : str) :
  finditer page_header (sub ws_run [space] raw) = [].
Proof. by destruct (newline_subs_dead raw) as (_ & _ & H). Qed.

(** C2: boilerplate lines (a page number followed by the document-series
    marker) are to be removed before white space is collapsed, so that
    such a line does not survive into the output of [clean_text].  The
    code collapses white space first; evaluated on a text with such a
    line, [clean_text] returns the line's words in its output. *)
Theorem clean_text_keeps_page_header :
  clean_text page_header_doc
  = s "Intro text. 12 3GPP TS 23.501 V16 Body text.".
Proof. reflexivity. Qed.

(** C4 as stated fails: deleting a character that stands between two
    spaces leaves two spaces, which a second run collapses. *)
Lemma clean_text_not_idempotent :
  clean_text (clean_text (s "a @ b")) <> clean_text (s "a @ b").
Proof. vm_compute. discriminate. Qed.

(** C4, amended: for every input [x], re-running [clean_text] on
    [clean_text x] is a no-op exactly when [clean_text x] holds no two
    adjacent spaces.  (Two adjacent spaces are left where the characters
    deleted after the white space collapse stood between two spaces.) *)
Theorem clean_text_idempotent_iff (x : str) :
  clean_text (clean_text x) = clean_text x
  <-> double_space (clean_text x) = false.
Proof. apply clean_twice_iff. Qed.

Lemma clean_text_idempotent_iff_witness :
  double_space (clean_text (s "3GPP TS 23.501 (Release@16)")) = false
  /\ clean_text (clean_text (s "3GPP TS 23.501 (Release@16)"))
     = clean_text (s "3GPP TS 23.501 (Release@16)").
Proof.
  split; [reflexivity|].
  apply (proj2 (clean_text_idempotent_iff (s "3GPP TS 23.501 (Release@16)"))).
  reflexivity.
Defined.

(** In particular normalisation is idempotent on every text whose
    characters are all in the allow-list, and on a text such as
    [a@b], where the deleted character does not stand between spaces. *)
Corollary clean_text_idempotent_on_allowed (x : str) :
  Forall (fun c => allowed c = true) x ->
  clean_text (clean_text x) = clean_text x.
Proof. apply clean_twice_allowed. Qed.

Example clean_text_idempotent_at_sign :
  clean_text (clean_text (s "a@b")) = clean_text (s "a@b").
Proof. reflexivity. Qed.

(** On any text at all, the second run reaches a fixed point. *)
Corollary clean_text_stable_after_two (x : str) :
  clean_text (clean_text (clean_text x)) = clean_text (clean_text x).
Proof. apply clean_twice_allowed, clean_text_allowed. Qed.

End NormalizerClaims.

(** ** The chunker: sentence ends in a window *)

Module ChunkerFacts.
Import Text Re Normalizer Chunker Aux ReFacts NormalizerFacts.

Lemma match_here_sentence_end (c : ascii) (t : str) :
  match_here sentence_end (c :: t)
  = if is_terminator c && (0 <? span is_space t)%nat
    then Some (S (span is_space t)) else None.
Proof.
  change (match_here sentence_end (c :: t))
    with (if is_terminator c then S <$> match_here (Plus is_space) t else None).
  destruct (is_terminator c); [|done]. destruct t as [|c' t]; [done|].
  rewrite match_here_plus_end. simpl. by destruct (is_space c').
Qed.

Lemma last_end_space (c : ascii) (w : str) :
  is_space c = true -> last_end (c :: w) = S <$> last_end w.
Proof.
  intros Hc. simpl. destruct (last_end w); [done|].
  destruct (is_terminator c) eqn:Ht; [|done].
  apply terminator_not_space in Ht. congruence.
Qed.

(** The last element of [sentence_endings] is [last_end]. *)
Lemma finditer_last_end (w : str) (pos skip : nat) :
  (skip <= span is_space w)%nat ->
  last (map snd (finditer_from sentence_end pos skip w))
  = (fun e => (pos + e)%nat) <$> last_end w.
Proof.
  revert pos skip. induction w as [|c w IH]; intros pos skip Hskip; [done|].
  cbn [finditer_from]. destruct skip as [|k].
  - rewrite match_here_sentence_end. cbn [last_end].
    destruct (is_terminator c && (0 <? span is_space w)%nat) eqn:Hm.
    + cbn [map snd]. rewrite last_cons, (IH (S pos) (span is_space w)) by lia.
      destruct (last_end w) as [e|]; simpl; f_equal; lia.
    + rewrite (IH (S pos) O) by lia.
      destruct (last_end w) as [e|]; simpl; f_equal; lia.
  - cbn [span] in Hskip. destruct (is_space c) eqn:Hc; [|lia].
    rewrite (IH (S pos) k) by lia. rewrite (last_end_space c w Hc).
    destruct (last_end w) as [e|]; simpl; f_equal; lia.
Qed.

Lemma sentence_endings_last (w : str) :
  last (map snd (finditer sentence_end w)) = last_end w.
Proof.
  unfold finditer. rewrite finditer_last_end by lia.
  by destruct (last_end w).
Qed.

(** Text put in front of a window does not change its last sentence
    end. *)
Lemma last_end_app (u v : str) (e : nat) :
  last_end v = Some e -> last_end (u ++ v) = Some (length u + e)%nat.
Proof.
  intros Hv. induction u as [|c u IH]; [done|].
  simpl. by rewrite IH.
Qed.

Lemma span_take (f : ascii -> bool) (n : nat) (w : str) :
  span f (take n w) = Nat.min n (span f w).
Proof.
  revert n. induction w as [|c w IH]; intros [|n]; simpl; try done.
  destruct (f c); [|done]. by rewrite IH.
Qed.

Lemma last_end_take_None (n : nat) (w : str) :
  last_end w = None -> last_end (take n w) = None.
Proof.
  revert n. induction w as [|c w IH]; intros [|n]; try done.
  cbn [take last_end]. destruct (last_end w) as [e|] eqn:Hw; [done|].
  rewrite (IH n eq_refl). rewrite span_take.
  destruct (is_terminator c); [|done]. simpl.
  destruct (span is_space w); [|done].
  by rewrite Nat.min_0_r.
Qed.

(** Cutting a window after its last sentence end does not change it. *)
Lemma last_end_take (n : nat) (w : str) (e : nat) :
  last_end w = Some e -> (e <= n)%nat -> last_end (take n w) = Some e.
Proof.
  revert n e. induction w as [|c w IH]; intros n e; [done|].
  cbn [last_end]. destruct (last_end w) as [e'|] eqn:Hw.
  - intros [= <-] Hn. destruct n as [|n]; [lia|].
    cbn [take last_end]. by rewrite (IH n e' eq_refl) by lia.
  - destruct (is_terminator c && (0 <? span is_space w)%nat) eqn:Hm; [|done].
    intros [= <-] Hn. destruct n as [|n]; [lia|].
    cbn [take last_end]. rewrite (last_end_take_None n w Hw), span_take.
    apply andb_prop in Hm as [-> Hsp]. apply Nat.ltb_lt in Hsp.
    replace (Nat.min n (span is_space w)) with (span is_space w) by lia.
    simpl. destruct (span is_space w); [lia|done].
Qed.

(** A slice between two bounds that are not negative. *)
Lemma slice_nonneg (t : str) (a b : Z) :
  0 <= a -> 0 <= b ->
  slice t a b = take (Z.to_nat b - Z.to_nat a) (drop (Z.to_nat a) t).
Proof.
  intros Ha Hb. unfold slice, slice_index.
  destruct (Z.ltb_spec a 0) as [|_]; [lia|].
  destruct (Z.ltb_spec b 0) as [|_]; [lia|].
  destruct (Z_le_gt_dec a (Z.of_nat (length t))) as [Hle|Hgt].
  - rewrite (Z.min_l a) by lia.
    destruct (Z_le_gt_dec b (Z.of_nat (length t))) as [Hb'|Hb'].
    + rewrite (Z.min_l b) by lia. f_equal. lia.
    + rewrite (Z.min_r b) by lia.
      rewrite !take_ge; [done| |]; rewrite length_drop; lia.
  - rewrite (Z.min_r a) by lia.
    rewrite !drop_ge by lia. by rewrite !take_nil.
Qed.

(** *** The loop *)

Section loop.
Context (self : config) (txt : str) (meta : gmap string scalar).

Abbreviation len := (Z.of_nat (length txt)).
Abbreviation cs := (chunk_size self).
Abbreviation ov := (chunk_overlap self).

Lemma chunk_end_eq (start : Z) :
  chunk_end self txt start
  = if start + cs <? len then
      match last_end (window self txt start) with
      | Some r => (Z.max start (start + cs - 100) + Z.of_nat r, true)
      | None => (start + cs, false)
      end
    else (start + cs, false).
Proof.
  unfold chunk_end, window. cbv zeta.
  destruct (start + cs <? len); [|done].
  by rewrite sentence_endings_last.
Qed.

Lemma next_start_pos (start : Z) : 1 <= next_start self txt start.
Proof.
  unfold next_start. cbv zeta.
  destruct (Z.leb_spec (fst (chunk_end self txt start) - ov) 0); lia.
Qed.

(** Without a sentence end in the window the end is the tentative
    one. *)
Lemma chunk_end_not_snapped (start : Z) :
  snd (chunk_end self txt start) = false ->
  fst (chunk_end self txt start) = start + cs.
Proof.
  rewrite chunk_end_eq. destruct (start + cs <? len); [|done].
  by destruct (last_end (window self txt start)).
Qed.

Lemma chunk_end_lower (start : Z) :
  0 <= start -> Z.min start (start + cs) <= fst (chunk_end self txt start).
Proof.
  intros Hs. rewrite chunk_end_eq. destruct (start + cs <? len); [|simpl; lia].
  destruct (last_end (window self txt start)); simpl; lia.
Qed.

(** When the cursor does not advance, it has reached a fixed point of
    the loop body: the sentence end that pulled the end back is again
    the last one in the next window. *)
Lemma next_start_stuck (start : Z) :
  ov < cs -> 0 <= start -> start < len ->
  next_start self txt start <= start ->
  next_start self txt (next_start self txt start) = next_start self txt start.
Proof.
  intros Hov Hs Hlen Hback.
  pose proof (next_start_pos start) as Hpos.
  remember (next_start self txt start) as s' eqn:Es'.
  unfold next_start in Es'. cbv zeta in Es'.
  rewrite chunk_end_eq in Es'.
  destruct (Z.ltb_spec (start + cs) len) as [Hend|Hend]; cycle 1.
  { simpl in Es'. destruct (Z.leb_spec (start + cs - ov) 0); lia. }
  destruct (last_end (window self txt start)) as [r|] eqn:Hr; cycle 1.
  { simpl in Es'. destruct (Z.leb_spec (start + cs - ov) 0); lia. }
  simpl in Es'.
  remember (Z.max start (start + cs - 100)) as ss eqn:Ess.
  assert (Hcs : 0 < cs).
  { destruct (Z.leb_spec (ss + Z.of_nat r - ov) 0); lia. }
  assert (Hs' : ss + Z.of_nat r < s' + cs + 100).
  { destruct (Z.leb_spec (ss + Z.of_nat r - ov) 0); lia. }
  unfold next_start. cbv zeta. rewrite chunk_end_eq.
  destruct (Z.ltb_spec (s' + cs) len) as [_|]; [|lia].
  remember (Z.max s' (s' + cs - 100)) as ss' eqn:Ess'.
  assert (Hw : last_end (window self txt s') = Some (Z.to_nat (ss - ss') + r)%nat).
  { unfold window in *. rewrite <- Ess in Hr. rewrite <- Ess'.
    rewrite slice_nonneg in Hr |- * by lia.
    remember (Z.to_nat (ss - ss')) as d eqn:Ed.
    rewrite <- (take_drop d (drop (Z.to_nat ss') txt)).
    rewrite drop_drop.
    replace (Z.to_nat ss' + d)%nat with (Z.to_nat ss) by lia.
    rewrite take_app_ge; rewrite length_take, length_drop; [|lia].
    replace (Nat.min d (length txt - Z.to_nat ss')) with d by lia.
    rewrite (last_end_app _ _ r).
    { f_equal. rewrite length_take, length_drop. lia. }
    remember (Z.to_nat (start + cs + 100) - Z.to_nat ss)%nat as n eqn:En.
    remember (Z.to_nat (s' + cs + 100) - Z.to_nat ss' - d)%nat as n' eqn:En'.
    replace (take n' (drop (Z.to_nat ss) txt))
      with (take n' (take n (drop (Z.to_nat ss) txt))).
    - apply last_end_take; [done|]. lia.
    - rewrite take_take. f_equal. lia. }
  rewrite Hw. simpl.
  replace (ss' + Z.of_nat (Z.to_nat (ss - ss') + r)) with (ss + Z.of_nat r)
    by lia.
  by rewrite Es'.
Qed.

Lemma chunk_loop_unfold (fuel : nat) (start id : Z) :
  chunk_loop self txt meta (S fuel) start id
  = if start <? len then
      let c := make_chunk self txt meta start
                 (fst (chunk_end self txt start)) id in
      rest ← chunk_loop self txt meta fuel (next_start self txt start)
               (next_id c id);
      Some (option_list c ++ rest)
    else Some [].
Proof. reflexivity. Qed.

(** From a fixed point inside the text the loop never returns. *)
Lemma chunk_loop_fixed_point (start : Z) :
  start < len -> next_start self txt start = start ->
  forall (fuel : nat) (id : Z), chunk_loop self txt meta fuel start id = None.
Proof.
  intros Hlen Hfix fuel. induction fuel as [|fuel IH]; intros id.
  - simpl. destruct (Z.ltb_spec start len); [done|lia].
  - rewrite chunk_loop_unfold. destruct (Z.ltb_spec start len); [|lia].
    cbv zeta. rewrite Hfix, IH. done.
Qed.

(** Whenever the loop returns, every iteration has advanced the
    cursor. *)
Lemma chunk_loop_advances (fuel : nat) (start id : Z)
    (chunks : list DocumentChunk) :
  ov < cs -> 0 <= start -> start < len ->
  chunk_loop self txt meta (S fuel) start id = Some chunks ->
  start < next_start self txt start.
Proof.
  intros Hov Hs Hlen Hrun.
  destruct (Z_lt_le_dec start (next_start self txt start)) as [|Hback]; [done|].
  exfalso. rewrite chunk_loop_unfold in Hrun.
  destruct (Z.ltb_spec start len); [|lia]. cbv zeta in Hrun.
  rewrite (chunk_loop_fixed_point (next_start self txt start)) in Hrun.
  - done.
  - lia.
  - by apply next_start_stuck.
Qed.

Lemma make_chunk_start_char (start end_ id : Z) (c : DocumentChunk) :
  make_chunk self txt meta start end_ id = Some c ->
  start_char c = Some start /\ end_char c = Some end_ /\ chunk_id c = id.
Proof.
  unfold make_chunk. cbv zeta.
  destruct (min_chunk_size self <=? _); [|done].
  intros [= <-]. unfold start_char, end_char, meta_int. simpl.
  by simplify_map_eq.
Qed.

(** The start offsets of the chunks the loop returns. *)
Lemma chunk_loop_starts (fuel : nat) :
  ov < cs ->
  forall (start id : Z) (chunks : list DocumentChunk),
    0 <= start ->
    chunk_loop self txt meta fuel start id = Some chunks ->
    exists starts : list Z,
      Forall2 (fun c z => start_char c = Some z) chunks starts
      /\ Forall (fun z => start <= z) starts
      /\ StronglySorted Z.lt starts.
Proof.
  intros Hov. induction fuel as [|fuel IH]; intros start id chunks Hs Hrun.
  - simpl in Hrun. destruct (start <? len); [done|].
    injection Hrun as <-. exists []. repeat constructor.
  - pose proof Hrun as Hrun'. rewrite chunk_loop_unfold in Hrun.
    destruct (Z.ltb_spec start len) as [Hlen|Hlen]; cycle 1.
    { injection Hrun as <-. exists []. repeat constructor. }
    pose proof (chunk_loop_advances fuel start id chunks Hov Hs Hlen Hrun')
      as Hadv.
    cbv zeta in Hrun.
    destruct (chunk_loop self txt meta fuel (next_start self txt start) _)
      as [rest|] eqn:Hrest; [|done].
    simpl in Hrun. injection Hrun as <-.
    assert (Hnext : 0 <= next_start self txt start) by lia.
    destruct (IH _ _ _ Hnext Hrest) as (starts & Hst & Hge & Hsorted).
    destruct (make_chunk self txt meta start _ id) as [c|] eqn:Hc; simpl.
    + apply make_chunk_start_char in Hc as (Hc & _ & _).
      exists (start :: starts). repeat split.
      * by constructor.
      * constructor; [lia|]. eapply Forall_impl; [exact Hge|]. simpl. lia.
      * constructor; [done|]. eapply Forall_impl; [exact Hge|]. simpl. lia.
    + exists starts. repeat split; [done| |done].
      eapply Forall_impl; [exact Hge|]. simpl. lia.
Qed.

Lemma loop_trace_unfold (fuel : nat) (start id : Z) :
  loop_trace self txt meta (S fuel) start id
  = if start <? len then
      let c := make_chunk self txt meta start
                 (fst (chunk_end self txt start)) id in
      rest ← loop_trace self txt meta fuel (next_start self txt start)
               (next_id c id);
      Some ({| it_start := start; it_end := fst (chunk_end self txt start);
               it_snapped := snd (chunk_end self txt start); it_chunk := c |}
            :: rest)
    else Some [].
Proof. reflexivity. Qed.

(** The chunks returned are the chunks of the iterations, in order. *)
Lemma chunk_loop_trace (fuel : nat) (start id : Z) :
  chunk_loop self txt meta fuel start id
  = (fun tr : list iteration => omap it_chunk tr)
      <$> loop_trace self txt meta fuel start id.
Proof.
  revert start id. induction fuel as [|fuel IH]; intros start id.
  - simpl. by destruct (start <? len).
  - rewrite chunk_loop_unfold, loop_trace_unfold.
    destruct (start <? len); [|done]. cbv zeta. rewrite IH.
    destruct (loop_trace self txt meta fuel _ _) as [rest|]; [|done].
    simpl. by destruct (make_chunk self txt meta start _ id).
Qed.

Lemma loop_trace_head (fuel : nat) (start id : Z) (i : iteration)
    (rest : list iteration) :
  loop_trace self txt meta fuel start id = Some (i :: rest) ->
  exists (fuel' : nat) (id' : Z),
    it_start i = start
    /\ it_end i = fst (chunk_end self txt start)
    /\ it_snapped i = snd (chunk_end self txt start)
    /\ it_chunk i = make_chunk self txt meta start (it_end i) id
    /\ loop_trace self txt meta fuel' (next_start self txt start) id'
       = Some rest.
Proof.
  destruct fuel as [|fuel].
  - simpl. by destruct (start <? len).
  - rewrite loop_trace_unfold. destruct (start <? len); [|done].
    cbv zeta.
    destruct (loop_trace self txt meta fuel _ _) as [rest'|] eqn:Hrest;
      [|done].
    simpl. intros [= <- <-]. eexists fuel, _. by repeat split.
Qed.

(** Two consecutive iterations anywhere in the run. *)
Lemma loop_trace_adjacent (pre : list iteration) :
  forall (fuel : nat) (start id : Z) (i1 i2 : iteration)
         (post : list iteration),
    0 <= start ->
    loop_trace self txt meta fuel start id = Some (pre ++ i1 :: i2 :: post) ->
    0 <= it_start i1
    /\ it_end i1 = fst (chunk_end self txt (it_start i1))
    /\ it_snapped i1 = snd (chunk_end self txt (it_start i1))
    /\ it_start i2 = next_start self txt (it_start i1)
    /\ (exists id1, it_chunk i1
                    = make_chunk self txt meta (it_start i1) (it_end i1) id1)
    /\ (exists id2, it_chunk i2
                    = make_chunk self txt meta (it_start i2) (it_end i2) id2).
Proof.
  induction pre as [|i pre IH]; intros fuel start id i1 i2 post Hs Hrun.
  - apply loop_trace_head in Hrun
      as (fuel' & id' & Hst & He & Hsn & Hc & Hrest).
    apply loop_trace_head in Hrest
      as (_ & _ & Hst2 & He2 & _ & Hc2 & _).
    rewrite Hst. split; [done|]. split; [done|]. split; [done|].
    split; [done|]. split.
    + exists id. exact Hc.
    + exists id'. rewrite Hst2. exact Hc2.
  - apply loop_trace_head in Hrun as (fuel' & id' & _ & _ & _ & _ & Hrest).
    apply (IH fuel' (next_start self txt start) id' i1 i2 post); [|exact Hrest].
    pose proof (next_start_pos start). lia.
Qed.

(** Without snapping, and with a positive overlap smaller than the
    chunk size, the next chunk starts the overlap before the end. *)
Lemma next_start_not_snapped (start : Z) :
  0 <= start -> 0 < ov < cs ->
  snd (chunk_end self txt start) = false ->
  fst (chunk_end self txt start) - next_start self txt start = ov.
Proof.
  intros Hs Hov Hsn. unfold next_start. cbv zeta.
  rewrite (chunk_end_not_snapped start Hsn).
  destruct (Z.leb_spec (start + cs - ov) 0); lia.
Qed.

(** *** A sufficient condition for termination *)

Lemma last_end_ge (w : str) (r : nat) : last_end w = Some r -> (2 <= r)%nat.
Proof.
  revert r. induction w as [|c w IH]; intros r; [done|]. cbn [last_end].
  destruct (last_end w) as [e|].
  - intros [= <-]. specialize (IH e eq_refl). lia.
  - destruct (is_terminator c && (0 <? span is_space w)%nat) eqn:Hm; [|done].
    intros [= <-]. apply andb_prop in Hm as [_ Hsp].
    apply Nat.ltb_lt in Hsp. lia.
Qed.

(** A sentence end lies at most 98 characters before the tentative end,
    so a step of 99 characters or more always advances the cursor. *)
Lemma next_start_wide_step (start : Z) :
  99 <= cs - ov -> 0 <= start -> start < next_start self txt start.
Proof.
  intros Hstep Hs. unfold next_start. cbv zeta. rewrite chunk_end_eq.
  destruct (start + cs <? len).
  - destruct (last_end (window self txt start)) as [r|] eqn:Hr; simpl.
    + apply last_end_ge in Hr.
      destruct (Z.leb_spec (Z.max start (start + cs - 100) + Z.of_nat r - ov) 0);
        lia.
    + destruct (Z.leb_spec (start + cs - ov) 0); lia.
  - simpl. destruct (Z.leb_spec (start + cs - ov) 0); lia.
Qed.

Lemma chunk_loop_returns (fuel : nat) :
  99 <= cs - ov ->
  forall (start id : Z),
    0 <= start -> len - start <= Z.of_nat fuel ->
    exists chunks : list DocumentChunk,
      chunk_loop self txt meta fuel start id = Some chunks.
Proof.
  intros Hstep. induction fuel as [|fuel IH]; intros start id Hs Hfuel.
  - exists []. simpl. destruct (Z.ltb_spec start len); [lia|done].
  - rewrite chunk_loop_unfold.
    destruct (Z.ltb_spec start len) as [Hlen|Hlen]; [|by exists []].
    cbv zeta. pose proof (next_start_wide_step start Hstep Hs) as Hadv.
    set (c := make_chunk self txt meta start _ id).
    destruct (IH (next_start self txt start) (next_id c id)) as [rest ->];
      [lia|lia|].
    by eexists.
Qed.

End loop.

End ChunkerFacts.

(** ** The chunker: the properties of the specification *)

Module ChunkerClaims.
Import Text Re Normalizer Chunker Aux ReFacts NormalizerFacts ChunkerFacts.

(** The sentence ends of a text, as [re.finditer] reports them. *)
Example sentence_ends :
  finditer sentence_end (s "a. b!  c?d. ")
  = [(1, 3); (4, 7); (10, 12)]%nat.
Proof. reflexivity. Qed.

(** The basic scenario of the test suite returns three chunks. *)
Example chunk_text_test_scenario :
  (fun chunks => map (fun c => (start_char c, end_char c, chunk_id c)) chunks)
    <$> chunk_text test_config 10 test_text test_meta
  = Some [(Some 0, Some 150, 0); (Some 140, Some 225, 1);
          (Some 215, Some 265, 2)].
Proof. vm_compute. reflexivity. Qed.

(** C1: the specification says that with [chunk_size > 0] and
    [chunk_overlap < chunk_size] the loop of [chunk_text] terminates,
    the end exceeding the previous end on every iteration, and that the
    guard [start = 1] makes it terminate for [chunk_overlap >= chunk_size]
    too.  The code does not: with chunk size 10 and overlap 5 the text
    [aaaa. aaaaaaaaaa] snaps the end back to 6 in every iteration, the
    cursor stays at 1 and no amount of fuel makes [chunk_text] return;
    with chunk size 2 and overlap 2 the guard itself holds the cursor at
    1. *)
Theorem chunk_text_never_returns :
  (0 < chunk_size stuck_config
   /\ chunk_overlap stuck_config < chunk_size stuck_config)
  /\ fst (chunk_end stuck_config stuck_text 1)
     = fst (chunk_end stuck_config stuck_text 0)
  /\ (forall (fuel : nat) (metadata : gmap string scalar),
        chunk_text stuck_config fuel stuck_text metadata = None)
  /\ (forall (fuel : nat) (metadata : gmap string scalar),
        chunk_text full_overlap_config fuel plain_text metadata = None).
Proof.
  split; [done|]. split; [reflexivity|].
  split; intros fuel metadata; unfold chunk_text.
  - replace (clean_text stuck_text) with stuck_text
      by (vm_compute; reflexivity).
    destruct fuel as [|fuel]; [reflexivity|].
    rewrite chunk_loop_unfold.
    replace (0 <? Z.of_nat (length stuck_text)) with true by reflexivity.
    cbv zeta.
    replace (next_start stuck_config stuck_text 0) with 1
      by (vm_compute; reflexivity).
    by rewrite chunk_loop_fixed_point.
  - replace (clean_text plain_text) with plain_text
      by (vm_compute; reflexivity).
    destruct fuel as [|fuel]; [reflexivity|].
    rewrite chunk_loop_unfold.
    replace (0 <? Z.of_nat (length plain_text)) with true by reflexivity.
    cbv zeta.
    replace (next_start full_overlap_config plain_text 0) with 1
      by (vm_compute; reflexivity).
    by rewrite chunk_loop_fixed_point.
Qed.

(** A step [chunk_size - chunk_overlap] of 99 characters or more, as in
    the constructor's defaults 1000 and 200, does make the loop
    terminate: as many iterations as the text has characters suffice. *)
Lemma chunk_text_returns_wide_step (self : config) (text : str)
    (metadata : gmap string scalar) :
  99 <= chunk_size self - chunk_overlap self ->
  exists chunks : list DocumentChunk,
    chunk_text self (length (clean_text text)) text metadata = Some chunks.
Proof.
  intros Hstep. unfold chunk_text.
  apply chunk_loop_returns; [done|done|lia].
Qed.

(** C3: for every text and every configuration with
    [chunk_overlap < chunk_size], the [start_char] values of the chunks
    that [chunk_text] returns are strictly increasing in the order of
    the chunks, hence also non-decreasing. *)
Theorem chunk_text_start_char_increasing (self : config) (fuel : nat)
    (text : str) (metadata : gmap string scalar)
    (chunks : list DocumentChunk) :
  chunk_overlap self < chunk_size self ->
  chunk_text self fuel text metadata = Some chunks ->
  exists starts : list Z,
    Forall2 (fun c z => start_char c = Some z) chunks starts
    /\ StronglySorted Z.lt starts
    /\ StronglySorted Z.le starts.
Proof.
  intros Hov Hrun.
  destruct (chunk_loop_starts self (clean_text text) metadata fuel Hov
              0 0 chunks ltac:(done) Hrun) as (starts & Hst & _ & Hlt).
  exists starts. repeat split; [done|done|].
  clear Hst. induction Hlt as [|z l Hl IH Hz]; constructor; [done|].
  eapply Forall_impl; [exact Hz|]. simpl. lia.
Qed.

Lemma chunk_text_start_char_increasing_witness :
  exists chunks : list DocumentChunk,
    chunk_overlap test_config < chunk_size test_config
    /\ chunk_text test_config 10 test_text test_meta = Some chunks
    /\ exists starts : list Z,
         Forall2 (fun c z => start_char c = Some z) chunks starts
         /\ StronglySorted Z.lt starts
         /\ StronglySorted Z.le starts.
Proof.
  eexists. split; [reflexivity|]. split; [vm_compute; reflexivity|].
  apply (chunk_text_start_char_increasing test_config 10 test_text test_meta).
  - reflexivity.
  - vm_compute. reflexivity.
Defined.

(** C5: with [chunk_overlap = k], [0 < k < chunk_size], whenever two
    chunks are emitted in consecutive iterations of the loop (they are
    then adjacent in the list returned) and no sentence end was found
    for the first, the first chunk's [end_char] minus the second
    chunk's [start_char] is [k]. *)
Theorem overlap_of_adjacent_chunks (self : config) (fuel : nat) (text : str)
    (metadata : gmap string scalar) (pre post : list iteration)
    (i1 i2 : iteration) (c1 c2 : DocumentChunk) :
  0 < chunk_overlap self < chunk_size self ->
  loop_trace self (clean_text text) metadata fuel 0 0
  = Some (pre ++ i1 :: i2 :: post) ->
  it_snapped i1 = false ->
  it_chunk i1 = Some c1 ->
  it_chunk i2 = Some c2 ->
  chunk_text self fuel text metadata
  = Some (omap it_chunk pre ++ c1 :: c2 :: omap it_chunk post)
  /\ exists e st : Z,
       end_char c1 = Some e /\ start_char c2 = Some st
       /\ e - st = chunk_overlap self.
Proof.
  intros Hov Htrace Hsn Hc1 Hc2. split.
  - unfold chunk_text. rewrite chunk_loop_trace, Htrace. simpl.
    rewrite omap_app. simpl. by rewrite Hc1, Hc2.
  - destruct (loop_trace_adjacent self (clean_text text) metadata pre fuel
                0 0 i1 i2 post ltac:(done) Htrace)
      as (Hs & He & Hsn' & Hst & (id1 & Hm1) & (id2 & Hm2)).
    rewrite Hc1 in Hm1. rewrite Hc2 in Hm2. symmetry in Hm1, Hm2.
    apply make_chunk_start_char in Hm1 as (_ & He1 & _).
    apply make_chunk_start_char in Hm2 as (Hs2 & _ & _).
    exists (it_end i1), (it_start i2). split; [done|]. split; [done|].
    rewrite Hst, He. apply next_start_not_snapped; [done|done|].
    by rewrite <- Hsn'.
Qed.

Lemma overlap_of_adjacent_chunks_witness :
  exists (i1 i2 : iteration) (post : list iteration) (c1 c2 : DocumentChunk),
    (0 < chunk_overlap plain_config < chunk_size plain_config)
    /\ loop_trace plain_config (clean_text long_word) test_meta 10 0 0
       = Some ([] ++ i1 :: i2 :: post)
    /\ it_snapped i1 = false
    /\ it_chunk i1 = Some c1
    /\ it_chunk i2 = Some c2
    /\ chunk_text plain_config 10 long_word test_meta
       = Some (omap it_chunk [] ++ c1 :: c2 :: omap it_chunk post)
    /\ exists e st : Z,
         end_char c1 = Some e /\ start_char c2 = Some st
         /\ e - st = chunk_overlap plain_config.
Proof.
  do 5 eexists.
  split; [done|]. split; [vm_compute; reflexivity|].
  split; [reflexivity|]. split; [reflexivity|]. split; [reflexivity|].
  eapply (overlap_of_adjacent_chunks plain_config 10 long_word test_meta []).
  - done.
  - vm_compute. reflexivity.
  - reflexivity.
  - reflexivity.
  - reflexivity.
Defined.

End ChunkerClaims.

(** ** The retriever: what the loop collects *)

Module RetrieverFacts.
Import Text Chunker Retriever Aux.

Local Open Scope string_scope.

Lemma prefix_app (x y : string) :
  String.prefix x y = true -> exists post, y = x ++ post.
Proof.
  revert y. induction x as [|a x IH]; intros y H.
  - by exists y.
  - destruct y as [|b y]; [done|]. simpl in H.
    destruct (Ascii.ascii_dec a b) as [->|]; [|done].
    destruct (IH y H) as [post ->]. by exists post.
Qed.

(** [x in y] holds only if [x] is a substring of [y]. *)
Lemma contains_substring (x y : string) :
  contains x y = true -> exists pre post, y = pre ++ x ++ post.
Proof.
  induction y as [|b y IH]; simpl; intros H.
  - destruct (prefix_app x "" H) as [post Hp]. by exists "", post.
  - apply orb_prop in H as [H|H].
    + destruct (prefix_app x (String b y) H) as [post Hp]. by exists "", post.
    + destruct (IH H) as (pre & post & ->). by exists (String b pre), post.
Qed.

Lemma contains_empty (x : string) : contains x "" = true -> x = "".
Proof. simpl. by destruct x. Qed.

Local Close Scope string_scope.

(** A candidate that is accepted under a non-empty filter has a string
    as its source, and the filter occurs in it. *)
Lemma accepted_source (f : string) (c : candidate) :
  f <> ""%string ->
  accepted (Some f) c = true ->
  exists src pre post : string,
    source (to_document c) = SStr src /\ src = (pre ++ f ++ post)%string.
Proof.
  intros Hf. unfold accepted, rejected, truthy.
  destruct (String.eqb_spec f "") as [|_]; [done|]. simpl.
  destruct c as [[doc md] distance]. simpl.
  destruct (md !! "source") as [[src| |]|] eqn:Hsrc; simpl; try done.
  - destruct (contains f src) eqn:Hc; [|done]. intros _.
    destruct (contains_substring f src Hc) as (pre & post & ->).
    by eexists _, pre, post.
  - by destruct f.
Qed.

Lemma accepted_no_filter (c : candidate) : accepted None c = true.
Proof. done. Qed.

(** The loop appends the accepted candidates in the order they come,
    and stops at [k] documents; as the length is tested after a document
    is appended, it appends one document for any [k] below one. *)
Lemma collect_take (k : Z) (source_filter : option string)
    (cands : list candidate) :
  forall (acc docs : list RetrievedDocument),
    Z.of_nat (length acc) < Z.max 1 k ->
    collect k source_filter cands acc = inr docs ->
    docs = acc ++ map to_document
             (take (Z.to_nat (Z.max 1 k) - length acc)
                (filter (fun c => accepted source_filter c = true) cands)).
Proof.
  induction cands as [|c cands IH]; intros acc docs Hacc; cbn [collect].
  - intros [= <-]. by rewrite filter_nil, take_nil, app_nil_r.
  - destruct (rejected source_filter c.1.2) as [e|[|]] eqn:Hrej; [done| |].
    + rewrite filter_cons_False by (unfold accepted; rewrite Hrej; done).
      by apply IH.
    + rewrite filter_cons_True by (unfold accepted; rewrite Hrej; done).
      rewrite length_app. simpl.
      destruct (Z.leb_spec k (Z.of_nat (length acc + 1))) as [Hk|Hk].
      * intros [= <-].
        replace (Z.to_nat (Z.max 1 k) - length acc)%nat with 1%nat by lia.
        done.
      * intros Hrun. apply IH in Hrun; [|rewrite length_app; simpl; lia].
        rewrite Hrun, length_app. simpl.
        replace (Z.to_nat (Z.max 1 k) - length acc)%nat
          with (S (Z.to_nat (Z.max 1 k) - (length acc + 1)))%nat by lia.
        simpl. by rewrite <- app_assoc.
Qed.

Lemma sublist_Forall {A : Type} (P : A -> Prop) (l1 l2 : list A) :
  l1 `sublist_of` l2 -> Forall P l2 -> Forall P l1.
Proof.
  induction 1 as [|x l1 l2 _ IH|x l1 l2 _ IH]; intros H; [done| |].
  - inversion H; subst. constructor; [done|by apply IH].
  - inversion H; subst. by apply IH.
Qed.

Lemma sublist_StronglySorted {A : Type} (R : A -> A -> Prop) (l1 l2 : list A) :
  l1 `sublist_of` l2 -> StronglySorted R l2 -> StronglySorted R l1.
Proof.
  induction 1 as [|x l1 l2 Hsub IH|x l1 l2 _ IH]; intros H; [done| |].
  - inversion H; subst. constructor; [by apply IH|].
    by apply (sublist_Forall _ l1 l2).
  - inversion H; subst. by apply IH.
Qed.

(** The candidates come in the order of the distances. *)
Lemma zip_sorted {A : Type} (R : Q -> Q -> Prop) (l : list A) (k : list Q) :
  StronglySorted R k ->
  StronglySorted (fun a b : A * Q => R (snd a) (snd b)) (zip l k).
Proof.
  intros Hk. revert l. induction Hk as [|d k Hk IH Hd]; intros [|a l]; simpl;
    try constructor.
  - apply IH.
  - clear IH Hk. revert l. induction Hd as [|d' k Hd' Hd IH]; intros [|b l];
      simpl; constructor; [done|apply IH].
Qed.

Lemma map_sorted_similarity (cands : list candidate) :
  StronglySorted (fun a b : candidate => (snd a <= snd b)%Q) cands ->
  StronglySorted (fun a b => (similarity b <= similarity a)%Q)
    (map to_document cands).
Proof.
  induction 1 as [|c cands _ IH Hc]; simpl; constructor; [done|].
  clear IH. induction Hc as [|c' cands Hc' _ IH]; simpl; constructor; [|done].
  destruct c as [[? ?] d], c' as [[? ?] d']. simpl in *.
  unfold Qminus. apply Qplus_le_r. by apply Qopp_le_compat.
Qed.

End RetrieverFacts.

(** ** The retriever: the properties of the specification *)

Module RetrieverClaims.
Import Text Chunker Retriever Aux RetrieverFacts.

(** C6: assuming the index answers with candidates in ascending order
    of distance, every document that [retrieve] returns is made from a
    candidate of the answer and carries [similarity = 1 - distance] of
    that candidate, the documents keep the order of the candidates, and
    their similarities are non-increasing along the list. *)
Theorem retrieve_similarity_order (self : DocumentRetriever)
    (query_text : string) (top_k_arg : option Z)
    (source_filter : option string) (docs : list RetrievedDocument) :
  (forall (embedding : list Q) (n : Z) (results : QueryResult),
      query self embedding n = inr results ->
      Sorted Qle (distances results)) ->
  retrieve self query_text top_k_arg source_filter = inr docs ->
  (exists (embedding : list Q) (n : Z) (results : QueryResult)
          (cands : list candidate),
      query self embedding n = inr results
      /\ cands `sublist_of` candidates results
      /\ docs = map to_document cands
      /\ Forall2 (fun d c => similarity d = (1 - snd c)%Q) docs cands)
  /\ StronglySorted (fun a b => (similarity b <= similarity a)%Q) docs.
Proof.
  intros Hport. unfold retrieve. cbv zeta.
  destruct (generate_embedding self query_text) as [e|embedding]; [done|].
  destruct (query self embedding _) as [e|results] eqn:Hq; [done|].
  intros Hrun. apply collect_take in Hrun; [|simpl; lia].
  rewrite app_nil_l in Hrun.
  set (cands := take _ _) in Hrun.
  assert (Hsub : cands `sublist_of` candidates results).
  { subst cands. etrans; [apply sublist_take|apply sublist_filter]. }
  split.
  - eexists embedding, _, results, cands. repeat split; [exact Hq|done|done|].
    subst docs. clear. induction cands as [|[[? ?] ?] cands IH]; by constructor.
  - subst docs. apply map_sorted_similarity.
    apply (sublist_StronglySorted _ _ _ Hsub).
    unfold candidates. apply (zip_sorted Qle).
    apply Sorted_StronglySorted; [|by eapply Hport].
    intros x y z. apply Qle_trans.
Qed.

Lemma retrieve_similarity_order_witness :
  (forall (embedding : list Q) (n : Z) (results : QueryResult),
      query demo_retriever embedding n = inr results ->
      Sorted Qle (distances results))
  /\ exists docs : list RetrievedDocument,
       retrieve demo_retriever "5G architecture" (Some 2) None = inr docs
       /\ StronglySorted (fun a b => (similarity b <= similarity a)%Q) docs.
Proof.
  assert (Hport : forall (embedding : list Q) (n : Z) (results : QueryResult),
             query demo_retriever embedding n = inr results ->
             Sorted Qle (distances results)).
  { intros embedding n results [= <-]. simpl.
    repeat constructor. unfold Qle. simpl. lia. }
  split; [exact Hport|].
  eexists. split; [vm_compute; reflexivity|].
  apply (retrieve_similarity_order demo_retriever "5G architecture"
           (Some 2) None).
  - exact Hport.
  - vm_compute. reflexivity.
Defined.

(** C7 as stated fails: the length is tested after a document has been
    appended, so that with a filter a [top_k] of -1 gives one document
    and a [top_k] of 0, which stands for the default of five, gives
    two. *)
Lemma retrieve_filter_exceeds_top_k :
  (exists docs : list RetrievedDocument,
      retrieve demo_retriever "5G architecture" (Some (-1)) (Some "23501")
      = inr docs
      /\ ~ Z.of_nat (length docs) <= -1)
  /\ (exists docs : list RetrievedDocument,
         retrieve demo_retriever "5G architecture" (Some 0) (Some "23501")
         = inr docs
         /\ ~ Z.of_nat (length docs) <= 0).
Proof.
  split; eexists; (split; [vm_compute; reflexivity|]); simpl; lia.
Qed.

(** C7, amended: with a non-empty [source_filter = s], [retrieve]
    returns the documents of the first accepted candidates, in the order
    of the index; every returned document has a source that contains [s]
    as a substring; accumulation stops at [max(1, k)] documents, [k]
    being [top_k or self.top_k], so that the list has at most
    [max(1, k)] of them: at most [top_k] for every [top_k] of at least
    one. *)
Theorem retrieve_source_filter (self : DocumentRetriever)
    (query_text : string) (top_k_arg : option Z) (s : string)
    (docs : list RetrievedDocument) :
  s <> ""%string ->
  retrieve self query_text top_k_arg (Some s) = inr docs ->
  let k := effective_k self top_k_arg in
  (exists (embedding : list Q) (results : QueryResult),
      generate_embedding self query_text = inr embedding
      /\ query self embedding (k * 2) = inr results
      /\ docs = map to_document
                  (take (Z.to_nat (Z.max 1 k))
                     (filter (fun c => accepted (Some s) c = true)
                        (candidates results))))
  /\ Forall (fun d => exists src pre post : string,
                 source d = SStr src /\ src = (pre ++ s ++ post)%string) docs
  /\ Z.of_nat (length docs) <= Z.max 1 k
  /\ (1 <= k -> Z.of_nat (length docs) <= k).
Proof.
  intros Hs. unfold retrieve. cbv zeta.
  replace (truthy (Some s)) with true
    by (unfold truthy; by destruct (String.eqb_spec s "")).
  destruct (generate_embedding self query_text) as [e|embedding]; [done|].
  destruct (query self embedding _) as [e|results] eqn:Hq; [done|].
  intros Hrun. apply collect_take in Hrun; [|simpl; lia].
  rewrite app_nil_l, Nat.sub_0_r in Hrun. split; [|split; [|split]].
  - by exists embedding, results.
  - subst docs. apply Forall_fmap, Forall_forall. intros c Hc. simpl.
    apply accepted_source; [done|].
    apply elem_of_take in Hc as (i & Hc & _).
    apply list_elem_of_lookup_2, list_elem_of_filter in Hc. tauto.
  - subst docs. rewrite length_map, length_take. lia.
  - intros Hk. subst docs. rewrite length_map, length_take. lia.
Qed.

Lemma retrieve_source_filter_witness :
  "23501"%string <> ""%string
  /\ exists docs : list RetrievedDocument,
       retrieve demo_retriever "5G architecture" (Some 1) (Some "23501")
       = inr docs
       /\ Forall (fun d => exists src pre post : string,
                      source d = SStr src
                      /\ src = (pre ++ "23501" ++ post)%string) docs
       /\ Z.of_nat (length docs) <= 1.
Proof.
  split; [done|]. eexists. split; [vm_compute; reflexivity|].
  destruct (retrieve_source_filter demo_retriever "5G architecture" (Some 1)
              "23501" _ ltac:(done) ltac:(vm_compute; reflexivity))
    as (_ & Hsrc & Hlen & _).
  split; [exact Hsrc|exact Hlen].
Defined.

(** Below one, the budget is exceeded by the first accepted candidate. *)
Example retrieve_negative_top_k :
  answer_length (retrieve demo_retriever "5G architecture" (Some (-1)) None)
  = Some 1%nat.
Proof. reflexivity. Qed.

(** C10: the argument [top_k = 0] does not cap the result at zero
    documents: [top_k or self.top_k] takes the constructor's [top_k]
    for it, as for [None], and [retrieve] answers what it answers without
    the argument, here two documents. *)
Theorem retrieve_top_k_zero :
  (forall self : DocumentRetriever,
      effective_k self (Some 0) = top_k self)
  /\ (forall (self : DocumentRetriever) (query_text : string)
             (source_filter : option string),
         retrieve self query_text (Some 0) source_filter
         = retrieve self query_text None source_filter)
  /\ answer_length
       (retrieve demo_retriever "5G architecture" (Some 0) None)
     = Some 2%nat.
Proof. repeat split. Qed.

End RetrieverClaims.

(** ** The extractor registry: dispatch and backend selection *)

Module ExtractorFacts.
Import Text Chunker Extractor Aux.

Section load.
Context (path_exists : Path -> bool).
Context (run_pdf run_docx : Path -> exn + (str * gmap string scalar)).
Context (run_doc : doc_method -> Path -> exn + str).

(** A backend that was invoked is logged, and its answer is the
    outcome: its result, or the exception it raised, whatever its
    class. *)
Lemma invoke_outcome {A : Type} (b : backend) (r : exn + A) :
  invoked (invoke b r) = [b] /\ outcome (invoke b r) = r.
Proof. done. Qed.

(** [_load_doc] with one method chosen. *)
Lemma load_doc_selected (self : processors) (file_path : Path)
    (m : doc_method) :
  select_backend self = Some m ->
  invoked (_load_doc run_doc self file_path) = [DocMethod m]
  /\ match run_doc m file_path with
     | inl e => outcome (_load_doc run_doc self file_path) = inl e
     | inr text =>
         exists md : gmap string scalar,
           outcome (_load_doc run_doc self file_path) = inr (text, md)
     end.
Proof.
  unfold select_backend, preference, _load_doc.
  rewrite !filter_cons, filter_nil.
  destruct (decide (antiword ∈ doc_methods self)) as [Ha|Ha];
    [rewrite (bool_decide_eq_true_2 _ Ha)
    |rewrite (bool_decide_eq_false_2 _ Ha);
     destruct (decide (textract ∈ doc_methods self)) as [Ht|Ht];
       [rewrite (bool_decide_eq_true_2 _ Ht)
       |rewrite (bool_decide_eq_false_2 _ Ht);
        destruct (decide (win32com ∈ doc_methods self)) as [Hw|Hw];
          [rewrite (bool_decide_eq_true_2 _ Hw)
          |rewrite (bool_decide_eq_false_2 _ Hw)]]];
    simpl; intros [= <-];
    destruct (run_doc _ file_path) as [cause|text]; simpl; eauto.
Qed.

Lemma load_doc_none (self : processors) (file_path : Path) :
  select_backend self = None ->
  invoked (_load_doc run_doc self file_path) = []
  /\ outcome (_load_doc run_doc self file_path) = inl RuntimeError.
Proof.
  unfold select_backend, preference, _load_doc.
  rewrite !filter_cons, filter_nil.
  destruct (decide (antiword ∈ doc_methods self)) as [Ha|Ha]; [done|].
  destruct (decide (textract ∈ doc_methods self)) as [Ht|Ht]; [done|].
  destruct (decide (win32com ∈ doc_methods self)) as [Hw|Hw]; [done|].
  intros _.
  rewrite (bool_decide_eq_false_2 _ Ha), (bool_decide_eq_false_2 _ Ht),
    (bool_decide_eq_false_2 _ Hw).
  done.
Qed.

(** [_load_doc] invokes at most one backend, and none exactly when no
    method is listed; it then fails with its own [RuntimeError]. *)
Lemma load_doc_invoked (self : processors) (file_path : Path) :
  (length (invoked (_load_doc run_doc self file_path)) <= 1)%nat
  /\ (invoked (_load_doc run_doc self file_path) = []
      <-> select_backend self = None)
  /\ (invoked (_load_doc run_doc self file_path) = []
      -> outcome (_load_doc run_doc self file_path) = inl RuntimeError).
Proof.
  destruct (select_backend self) as [m|] eqn:Hsel.
  - destruct (load_doc_selected self file_path m Hsel) as [Hi Ho].
    rewrite Hi. split; [simpl; lia|]. split; [split|]; done.
  - destruct (load_doc_none self file_path Hsel) as [Hi Ho].
    rewrite Hi, Ho. repeat split; simpl; (done || lia).
Qed.

(** The three tests of [load_document] that come before any backend:
    when one of them fails nothing is invoked, and otherwise
    [load_document] is the call of the loader of the format. *)
Lemma load_document_cases (self : processors) (file_path : Path) :
  let r := load_document path_exists run_pdf run_docx run_doc self file_path in
  let file_ext := lower (suffix file_path) in
  (path_exists file_path = false /\ r = raise FileNotFoundError)
  \/ (path_exists file_path = true
      /\ (file_ext ∉ [".pdf"; ".docx"; ".doc"]%string)
      /\ r = raise ValueError)
  \/ (path_exists file_path = true
      /\ file_ext ∈ [".pdf"; ".docx"; ".doc"]%string
      /\ detected self file_ext = false
      /\ r = raise RuntimeError)
  \/ (path_exists file_path = true
      /\ file_ext ∈ [".pdf"; ".docx"; ".doc"]%string
      /\ detected self file_ext = true
      /\ r = if String.eqb file_ext ".pdf" then
               invoke PdfReader (run_pdf file_path)
             else if String.eqb file_ext ".docx" then
               invoke DocxDocument (run_docx file_path)
             else _load_doc run_doc self file_path).
Proof.
  cbv zeta. unfold load_document, detected, _load_pdf, _load_docx.
  destruct (path_exists file_path); simpl; [|by left].
  right.
  destruct (String.eqb_spec (lower (suffix file_path)) ".pdf") as [->|Hpdf].
  { right. destruct (pdf self); simpl; [right|left];
      (split; [done|]); (split; [rewrite !elem_of_cons; tauto|done]). }
  destruct (String.eqb_spec (lower (suffix file_path)) ".docx") as [->|Hdocx].
  { right. destruct (docx self); simpl; [right|left];
      (split; [done|]); (split; [rewrite !elem_of_cons; tauto|done]). }
  destruct (String.eqb_spec (lower (suffix file_path)) ".doc") as [->|Hdoc].
  { right. destruct (doc self); simpl; [right|left];
      (split; [done|]); (split; [rewrite !elem_of_cons; tauto|done]). }
  left. split; [done|]. split; [|done].
  rewrite !not_elem_of_cons. repeat split; [done..|apply not_elem_of_nil].
Qed.

End load.

(** The methods are detected in the order of preference, so that the
    method chosen is the first one detected. *)
Lemma select_backend_detected (env : environment) :
  select_backend (_detect_processors env)
  = head (doc_methods (_detect_processors env))
  /\ select_backend (_detect_processors env)
     = if antiword_runs env then Some antiword
       else if import_textract env then Some textract
       else if platform_win32 env && import_win32com env then Some win32com
       else None.
Proof.
  destruct env as [p d a t w c].
  destruct a, t, w, c; split; reflexivity.
Qed.

End ExtractorFacts.

(** ** The extractor registry: the properties of the specification *)

Module ExtractorClaims.
Import Text Chunker Extractor Aux ExtractorFacts.

(** The suffix is compared in lower case. *)
Example lower_suffix : lower ".PDF" = ".pdf"%string /\ lower ".Doc" = ".doc"%string.
Proof. split; reflexivity. Qed.

(** C8 as stated fails: what an invoked backend raises is the outcome
    of [load_document], whatever its class.  For a file that exists
    under a recognised suffix, a [ValueError] of the DOCX reader (a
    package that is no Word document) is a [ValueError] of
    [load_document], and a [FileNotFoundError] of the antiword call (no
    such executable any more) is its [FileNotFoundError]. *)
Lemma load_document_backend_exception :
  let path_exists := fun _ : Path => true in
  let run_pdf := fun _ : Path => inr (s "text", ∅) in
  let run_docx := fun _ : Path => inl ValueError in
  let run_doc := fun (m : doc_method) (_ : Path) =>
                   match m with
                   | antiword => inl FileNotFoundError
                   | _ => inr (s "text")
                   end in
  let load := load_document path_exists run_pdf run_docx run_doc all_detected in
  ~ (path_exists word_file = true ->
     (outcome (load word_file) = inl ValueError
      <-> lower (suffix word_file) ∉ [".pdf"; ".docx"; ".doc"]%string))
  /\ ~ (outcome (load legacy_file) = inl FileNotFoundError
        <-> path_exists legacy_file = false).
Proof.
  cbv zeta. split.
  - intros H. destruct (H eq_refl) as [H1 _]. apply (H1 eq_refl).
    apply elem_of_cons. right. apply elem_of_cons. by left.
  - intros [H1 _]. by specialize (H1 eq_refl).
Qed.

(** C8, amended: [load_document] dispatches on the lower-cased suffix
    alone.  Before any backend is invoked it fails with
    [FileNotFoundError] if and only if the path does not exist; for a
    path that exists it fails, before any backend is invoked, with
    [ValueError] if and only if the suffix is none of [.pdf], [.docx],
    [.doc]; for one of these with no backend detected it fails with
    [RuntimeError] and invokes no backend.  With a backend detected,
    [load_document] is the call of the loader: the backend's result is
    returned and the exception it raises propagates as it is, whatever
    its class. *)
Theorem load_document_dispatch (path_exists : Path -> bool)
    (run_pdf run_docx : Path -> exn + (str * gmap string scalar))
    (run_doc : doc_method -> Path -> exn + str)
    (self : processors) (file_path : Path) :
  let r := load_document path_exists run_pdf run_docx run_doc self file_path in
  let file_ext := lower (suffix file_path) in
  (outcome r = inl FileNotFoundError /\ invoked r = []
   <-> path_exists file_path = false)
  /\ (path_exists file_path = true ->
      (outcome r = inl ValueError /\ invoked r = []
       <-> file_ext ∉ [".pdf"; ".docx"; ".doc"]%string))
  /\ (path_exists file_path = true ->
      file_ext ∈ [".pdf"; ".docx"; ".doc"]%string ->
      detected self file_ext = false ->
      outcome r = inl RuntimeError /\ invoked r = [])
  /\ (path_exists file_path = true ->
      file_ext ∈ [".pdf"; ".docx"; ".doc"]%string ->
      detected self file_ext = true ->
      r = if String.eqb file_ext ".pdf" then
            ([PdfReader], run_pdf file_path)
          else if String.eqb file_ext ".docx" then
            ([DocxDocument], run_docx file_path)
          else _load_doc run_doc self file_path).
Proof.
  cbv zeta.
  pose proof (load_document_cases path_exists run_pdf run_docx run_doc self
                file_path) as Hcases.
  cbv zeta in Hcases.
  destruct Hcases
    as [[Hex Hr]|[(Hex & Hext & Hr)|[(Hex & Hext & Hdet & Hr)
                                    |(Hex & Hext & Hdet & Hr)]]].
  - rewrite Hr, Hex. split; [done|]. by repeat split.
  - rewrite Hr, Hex. split; [split; [by intros [? _]|done]|].
    split; [done|]. split; intros _ Hin; by destruct (Hext Hin).
  - rewrite Hr, Hex, Hdet. split; [split; [by intros [? _]|done]|].
    split; [|by split].
    intros _. split; [by intros [? _]|]. intros Hnot. by destruct (Hnot Hext).
  - assert (Hnone : invoked (load_document path_exists run_pdf run_docx
                               run_doc self file_path) = [] ->
                    outcome (load_document path_exists run_pdf run_docx
                               run_doc self file_path) = inl RuntimeError).
    { rewrite Hr.
      destruct (String.eqb (lower (suffix file_path)) ".pdf"); [done|].
      destruct (String.eqb (lower (suffix file_path)) ".docx"); [done|].
      apply load_doc_invoked. }
    rewrite Hex, Hdet. split; [|split; [|split]].
    + split; [|done]. intros [Ho Hi]. rewrite (Hnone Hi) in Ho. done.
    + intros _. split; [|intros Hnot; by destruct (Hnot Hext)].
      intros [Ho Hi]. rewrite (Hnone Hi) in Ho. done.
    + done.
    + intros _ _ _. exact Hr.
Qed.

(** A suffix in capitals reaches the PDF backend. *)
Example load_document_capital_suffix :
  invoked
    (load_document (fun _ => true) (fun _ => inr (s "text", ∅))
       (fun _ => inl (OtherError "unused")) (fun _ _ => inl (OtherError "unused"))
       {| pdf := true; docx := false; doc := false; doc_methods := [] |}
       {| path_str := "specs/TS23501.PDF"; name := "TS23501.PDF";
          suffix := ".PDF" |})
  = [PdfReader].
Proof. reflexivity. Qed.

(** C9: for a legacy [.doc] file the backend is chosen in the fixed
    order antiword, textract, win32com among the methods detected at
    construction; only that first backend is invoked, and when it fails
    its failure is the outcome, no other backend being tried. *)
Theorem load_doc_first_available
    (run_doc : doc_method -> Path -> exn + str)
    (env : environment) (file_path : Path) :
  let self := _detect_processors env in
  let r := _load_doc run_doc self file_path in
  select_backend self
  = (if antiword_runs env then Some antiword
     else if import_textract env then Some textract
     else if platform_win32 env && import_win32com env then Some win32com
     else None)
  /\ match select_backend self with
     | Some m =>
         invoked r = [DocMethod m]
         /\ match run_doc m file_path with
            | inl e => outcome r = inl e
            | inr text =>
                exists md : gmap string scalar, outcome r = inr (text, md)
            end
     | None => invoked r = [] /\ outcome r = inl RuntimeError
     end.
Proof.
  cbv zeta. split; [apply select_backend_detected|].
  destruct (select_backend (_detect_processors env)) as [m|] eqn:Hsel.
  - by apply load_doc_selected.
  - by apply load_doc_none.
Qed.

(** With antiword and textract both detected, a failure of antiword is
    the outcome and textract is not invoked. *)
Example load_doc_no_retry :
  _load_doc
    (fun m _ => match m with
                | antiword => inl (OtherError "CalledProcessError")
                | _ => inr (s "text")
                end)
    (_detect_processors
       {| import_pypdf := true; import_docx := true; antiword_runs := true;
          import_textract := true; platform_win32 := false;
          import_win32com := false |})
    {| path_str := "specs/old.doc"; name := "old.doc"; suffix := ".doc" |}
  = ([DocMethod antiword], inl (OtherError "CalledProcessError")).
Proof. reflexivity. Qed.

End ExtractorClaims.

(** ** The normaliser: further properties *)

Module NormalizerExtra.
Import Text Re Normalizer Aux Aux2 ReFacts NormalizerFacts.

Lemma rstrip_ends_nonspace (t : str) : ends_nonspace (rstrip t).
Proof.
  induction t as [|c t IH]; [done|]. simpl.
  destruct (rstrip t) as [|a r].
  - by destruct (is_space c) eqn:Hc.
  - exact IH.
Qed.

Lemma lstrip_length (t : str) : (length (lstrip t) <= length t)%nat.
Proof.
  induction t as [|c t IH]; [done|]. simpl.
  destruct (is_space c); simpl; lia.
Qed.

Lemma rstrip_length (t : str) : (length (rstrip t) <= length t)%nat.
Proof.
  induction t as [|c t IH]; [done|]. simpl.
  destruct (rstrip t) as [|a r].
  - destruct (is_space c); simpl; lia.
  - simpl in *. lia.
Qed.

Lemma strip_length (t : str) : (length (strip t) <= length t)%nat.
Proof.
  unfold strip. pose proof (rstrip_length (lstrip t)).
  pose proof (lstrip_length t). lia.
Qed.

Lemma filter_length_le {A : Type} (f : A -> bool) (l : list A) :
  (length (List.filter f l) <= length l)%nat.
Proof.
  induction l as [|a l IH]; [done|]. simpl. destruct (f a); simpl; lia.
Qed.

(** A substitution whose replacement is at most one character long never
    makes the text longer. *)
Lemma sub_from_length (r : regex) (repl t : str) (skip : nat) :
  (length repl <= 1)%nat ->
  (length (sub_from r repl skip t) <= length t)%nat.
Proof.
  intros Hrepl. revert skip. induction t as [|c t IH]; intros skip; [done|].
  cbn [sub_from]. destruct skip as [|k].
  - destruct (match_here r (c :: t)) as [[|n]|].
    + specialize (IH O). simpl. lia.
    + specialize (IH n). rewrite length_app. simpl. lia.
    + specialize (IH O). simpl. lia.
  - specialize (IH k). simpl. lia.
Qed.

(** The characters of the collapsed text: spaces, and the characters of
    the text that are not white space. *)
Lemma collapse_elem_of (c : ascii) (t : str) (skip : nat) :
  c ∈ sub_from ws_run [space] skip t ->
  c = space \/ (c ∈ t /\ is_space c = false).
Proof.
  revert skip. induction t as [|a t IH]; intros skip; cbn [sub_from].
  - by intros ?%elem_of_nil.
  - destruct skip as [|k].
    + unfold ws_run. rewrite match_here_plus_end.
      destruct (is_space a) eqn:Ha.
      * simpl. intros [->|H]%elem_of_cons; [by left|].
        destruct (IH _ H) as [|[? ?]]; [by left|right].
        split; [by apply elem_of_cons; right|done].
      * intros [->|H]%elem_of_cons.
        { right. split; [by apply elem_of_cons; left|done]. }
        destruct (IH _ H) as [|[? ?]]; [by left|right].
        split; [by apply elem_of_cons; right|done].
    + intros H. destruct (IH _ H) as [|[? ?]]; [by left|right].
      split; [by apply elem_of_cons; right|done].
Qed.

Lemma collapse_keeps (c : ascii) (t : str) (skip : nat) :
  (skip <= span is_space t)%nat ->
  c ∈ t -> is_space c = false ->
  c ∈ sub_from ws_run [space] skip t.
Proof.
  revert skip. induction t as [|a t IH]; intros skip Hskip Hin Hc.
  - by apply elem_of_nil in Hin.
  - cbn [sub_from]. cbn [span] in Hskip. destruct skip as [|k].
    + unfold ws_run. rewrite match_here_plus_end.
      apply elem_of_cons in Hin as [->|Hin].
      * rewrite Hc. apply elem_of_cons. by left.
      * destruct (is_space a).
        { simpl. apply elem_of_cons. right. by apply IH. }
        { apply elem_of_cons. right. apply IH; [lia|done|done]. }
    + destruct (is_space a) eqn:Ha; [|lia].
      apply elem_of_cons in Hin as [->|Hin]; [congruence|].
      apply IH; [lia|done|done].
Qed.

Lemma lstrip_nil (t : str) :
  lstrip t = [] <-> Forall (fun c => is_space c = true) t.
Proof.
  induction t as [|c t IH]; [done|]. simpl.
  destruct (is_space c) eqn:Hc.
  - rewrite IH. split; [by constructor|by inversion 1].
  - split; [done|]. inversion 1; congruence.
Qed.

Lemma rstrip_nil (t : str) :
  rstrip t = [] <-> Forall (fun c => is_space c = true) t.
Proof.
  induction t as [|c t IH]; [done|]. simpl.
  destruct (rstrip t) as [|a r].
  - destruct (is_space c) eqn:Hc.
    + split; [|done]. intros _. constructor; [done|]. by apply IH.
    + split; [done|]. inversion 1; congruence.
  - split; [done|]. inversion 1; subst.
    by apply IH in H3.
Qed.

Lemma lstrip_suffix (t : str) : lstrip t `suffix_of` t.
Proof.
  induction t as [|c t IH]; [done|]. simpl.
  destruct (is_space c); [by apply suffix_cons_r|done].
Qed.

Lemma strip_nil (t : str) :
  strip t = [] <-> Forall (fun c => is_space c = true) t.
Proof.
  unfold strip. rewrite rstrip_nil. split.
  - intros H. induction t as [|c t IH]; [done|]. simpl in H.
    destruct (is_space c) eqn:Hc.
    + constructor; [done|by apply IH].
    + inversion H; congruence.
  - intros H. destruct (lstrip_suffix t) as [k Hk].
    rewrite Hk in H. by apply Forall_app in H as [_ H].
Qed.

(** X1: whatever the input, the two substitutions of [clean_text] that
    are anchored on a newline change nothing, and [clean_text] is: one
    space for every run of white space, the characters outside the
    allow-list deleted, the ends stripped. *)
Theorem clean_text_pipeline (text : str) :
  let collapsed := sub ws_run [space] text in
  sub blank_lines [newline; newline] collapsed = collapsed
  /\ sub page_header [newline] collapsed = collapsed
  /\ clean_text text = strip (List.filter allowed collapsed).
Proof.
  cbv zeta. destruct (newline_subs_dead text) as (H1 & H2 & _).
  split; [done|]. split; [done|]. apply clean_text_eq.
Qed.

(** X2: the output of [clean_text] holds only characters of the
    allow-list, its only white space character is the space (no
    newline, no tab), and it neither begins nor ends with white
    space. *)
Theorem clean_text_shape (text : str) :
  Forall (fun c => allowed c = true) (clean_text text)
  /\ Forall (fun c => is_space c = true -> c = space) (clean_text text)
  /\ Forall (fun c => is_newline c = false) (clean_text text)
  /\ starts_nonspace (clean_text text)
  /\ ends_nonspace (clean_text text).
Proof.
  pose proof (clean_text_only_space text) as Hsp.
  split; [apply clean_text_allowed|]. split; [done|]. split.
  - eapply Forall_impl; [exact Hsp|]. intros c Hc.
    destruct (is_newline c) eqn:Hn; [|done].
    pose proof (newline_not_space c Hn).
    by specialize (Hc (newline_is_space c Hn)).
  - rewrite clean_text_eq. split.
    + apply rstrip_starts_nonspace, lstrip_starts_nonspace.
    + apply rstrip_ends_nonspace.
Qed.

(** X3: a third run of [clean_text] changes nothing: for every input,
    the output of the second run is a fixed point. *)
Theorem clean_text_third_run (text : str) :
  clean_text (clean_text (clean_text text)) = clean_text (clean_text text).
Proof. apply clean_twice_allowed, clean_text_allowed. Qed.

Lemma clean_text_nil (text : str) :
  clean_text text = [] <-> Forall (fun c => removable c = true) text.
Proof.
  rewrite clean_text_eq, strip_nil, !Forall_forall. split.
  - intros H c Hc. unfold removable.
    destruct (is_space c) eqn:Hsp; [done|]. simpl.
    destruct (allowed c) eqn:Ha; [|done].
    rewrite (H c) in Hsp; [done|].
    apply list_elem_of_In, filter_In. split; [|done].
    apply list_elem_of_In, collapse_keeps; [simpl; lia|done|done].
  - intros H c Hc.
    apply list_elem_of_In, filter_In in Hc as [Hc Ha].
    apply list_elem_of_In, collapse_elem_of in Hc as [->|[Hc Hsp]]; [done|].
    specialize (H c Hc). unfold removable in H.
    rewrite Hsp, Ha in H. done.
Qed.

(** X4: [clean_text] returns the empty string exactly for the inputs
    made of white space and of characters outside the allow-list; in
    particular for the empty input. *)
Theorem clean_text_empty_iff (text : str) :
  clean_text text = [] <-> Forall (fun c => removable c = true) text.
Proof. apply clean_text_nil. Qed.

(** X5: [clean_text] never makes a text longer. *)
Theorem clean_text_length (text : str) :
  (length (clean_text text) <= length text)%nat.
Proof.
  rewrite clean_text_eq.
  pose proof (strip_length (List.filter allowed (sub ws_run [space] text))).
  pose proof (filter_length_le allowed (sub ws_run [space] text)).
  pose proof (sub_from_length ws_run [space] text O ltac:(simpl; lia)).
  unfold sub in *. lia.
Qed.

End NormalizerExtra.

(** ** The chunker: further properties *)

Module ChunkerExtra.
Import Text Re Normalizer Chunker Aux Aux2 ReFacts NormalizerFacts
  NormalizerExtra ChunkerFacts.

(** A run that evaluates to [Some _] is not [None]. *)
Ltac refute_none Hrun :=
  exfalso;
  match type of Hrun with
  | ?x = None =>
      let Hsome := fresh "Hsome" in
      assert (Hsome : from_option (fun _ => true) false x = true)
        by (vm_compute; reflexivity);
      rewrite Hrun in Hsome; discriminate Hsome
  end.

Lemma last_end_le (w : str) (r : nat) :
  last_end w = Some r -> (r <= length w)%nat.
Proof.
  revert r. induction w as [|c w IH]; intros r; [done|]. cbn [last_end].
  destruct (last_end w) as [e|].
  - intros [= <-]. specialize (IH e eq_refl). simpl. lia.
  - destruct (is_terminator c && (0 <? span is_space w)%nat); [|done].
    intros [= <-]. simpl.
    assert (span is_space w <= length w)%nat; [|lia].
    clear. induction w as [|a w IH]; simpl; [lia|].
    destruct (is_space a); lia.
Qed.

Lemma slice_length (t : str) (a b : Z) :
  (length (slice t a b) <= length t)%nat.
Proof.
  unfold slice. cbv zeta. rewrite length_take, length_drop. lia.
Qed.

Lemma slice_length_nonneg (t : str) (a b : Z) :
  0 <= a -> 0 <= b -> Z.of_nat (length (slice t a b)) <= Z.max 0 (b - a).
Proof.
  intros Ha Hb. rewrite slice_nonneg by done.
  rewrite length_take, length_drop. lia.
Qed.

Section loop.
Context (self : config) (txt : str) (meta : gmap string scalar).

Abbreviation len := (Z.of_nat (length txt)).
Abbreviation cs := (chunk_size self).
Abbreviation ov := (chunk_overlap self).

(** The end of an iteration lies after its start and at most 100
    characters after the tentative end. *)
Lemma chunk_end_bounds (start : Z) :
  0 <= start -> 0 < cs ->
  start < fst (chunk_end self txt start) <= start + cs + 100.
Proof.
  intros Hs Hcs. rewrite chunk_end_eq.
  destruct (start + cs <? len); [|simpl; lia].
  destruct (last_end (window self txt start)) as [r|] eqn:Hr; [|simpl; lia].
  pose proof (last_end_ge _ _ Hr). pose proof (last_end_le _ _ Hr) as Hle.
  unfold window in Hle.
  pose proof (slice_length_nonneg txt (Z.max start (start + cs - 100))
                (start + cs + 100) ltac:(lia) ltac:(lia)).
  simpl. lia.
Qed.

(** What holds of every chunk that some iteration makes holds of every
    chunk the loop returns. *)
Lemma chunk_loop_Forall (P : DocumentChunk -> Prop) :
  (forall (start id : Z) (c : DocumentChunk),
      0 <= start -> start < len ->
      make_chunk self txt meta start (fst (chunk_end self txt start)) id
      = Some c -> P c) ->
  forall (fuel : nat) (start id : Z) (chunks : list DocumentChunk),
    0 <= start ->
    chunk_loop self txt meta fuel start id = Some chunks ->
    Forall P chunks.
Proof.
  intros HP fuel. induction fuel as [|fuel IH]; intros start id chunks Hs.
  - simpl. destruct (start <? len); [done|]. by intros [= <-].
  - rewrite chunk_loop_unfold.
    destruct (Z.ltb_spec start len) as [Hlen|Hlen]; [|by intros [= <-]].
    cbv zeta.
    destruct (chunk_loop self txt meta fuel _ _) as [rest|] eqn:Hrest;
      [|done].
    simpl. intros [= <-]. apply Forall_app. split.
    + destruct (make_chunk self txt meta start _ id) as [c|] eqn:Hc;
        simpl; [|done].
      constructor; [|done]. by eapply HP.
    + eapply IH; [|exact Hrest]. pose proof (next_start_pos self txt start).
      lia.
Qed.

Lemma make_chunk_spec (start end_ id : Z) (c : DocumentChunk) :
  make_chunk self txt meta start end_ id = Some c ->
  text c = strip (slice txt start end_)
  /\ min_chunk_size self <= Z.of_nat (length (text c))
  /\ metadata c !! "chunk_size"
     = Some (SInt (Z.of_nat (length (text c))))
  /\ metadata c !! "chunk_index" = Some (SInt id)
  /\ (forall key : string, key ∉ chunk_keys ->
        metadata c !! key = meta !! key).
Proof.
  unfold make_chunk. cbv zeta.
  destruct (Z.leb_spec (min_chunk_size self)
              (Z.of_nat (length (strip (slice txt start end_)))))
    as [Hmin|]; [|done].
  intros [= <-]. simpl. repeat split; [done|by simplify_map_eq..|].
  intros key Hkey. unfold chunk_keys in Hkey.
  rewrite !not_elem_of_cons in Hkey. destruct Hkey as (? & ? & ? & ? & _).
  by rewrite !lookup_insert_ne.
Qed.

(** The identifiers count the chunks. *)
Lemma chunk_loop_ids (fuel : nat) :
  forall (start id : Z) (chunks : list DocumentChunk),
    chunk_loop self txt meta fuel start id = Some chunks ->
    forall (i : nat) (c : DocumentChunk),
      chunks !! i = Some c ->
      chunk_id c = id + Z.of_nat i
      /\ metadata c !! "chunk_index" = Some (SInt (id + Z.of_nat i)).
Proof.
  induction fuel as [|fuel IH]; intros start id chunks.
  - simpl. destruct (start <? len); [done|]. by intros [= <-].
  - rewrite chunk_loop_unfold. destruct (start <? len); [|by intros [= <-]].
    cbv zeta.
    destruct (chunk_loop self txt meta fuel _ _) as [rest|] eqn:Hrest;
      [|done].
    simpl. intros [= <-] i c.
    destruct (make_chunk self txt meta start _ id) as [c0|] eqn:Hc0;
      cbn [next_id option_list app] in *.
    + destruct i as [|i].
      * intros [= <-]. rewrite Z.add_0_r.
        pose proof (make_chunk_start_char _ _ _ _ _ _ _ Hc0) as (_ & _ & ?).
        pose proof (make_chunk_spec _ _ _ _ Hc0) as (_ & _ & _ & ? & _).
        done.
      * intros Hi. destruct (IH _ _ _ Hrest i c Hi) as [H1 H2].
        rewrite H1, H2. split; [lia|]. do 2 f_equal. lia.
    + intros Hi. exact (IH _ _ _ Hrest i c Hi).
Qed.

(** When every iteration advances the cursor, the loop returns within
    as many iterations as there are characters left. *)
Lemma chunk_loop_returns_advancing :
  (forall start : Z, 0 <= start -> start < len ->
                     start < next_start self txt start) ->
  forall (fuel : nat) (start id : Z),
    0 <= start -> len - start <= Z.of_nat fuel ->
    exists chunks : list DocumentChunk,
      chunk_loop self txt meta fuel start id = Some chunks.
Proof.
  intros Hadv fuel. induction fuel as [|fuel IH]; intros start id Hs Hfuel.
  - exists []. simpl. destruct (Z.ltb_spec start len); [lia|done].
  - rewrite chunk_loop_unfold.
    destruct (Z.ltb_spec start len) as [Hlen|Hlen]; [|by exists []].
    cbv zeta. specialize (Hadv start Hs Hlen).
    set (c := make_chunk self txt meta start _ id).
    destruct (IH (next_start self txt start) (next_id c id)) as [rest ->];
      [lia|lia|].
    by eexists.
Qed.

(** Three conditions under which every iteration advances. *)
Lemma next_start_advances (start : Z) :
  ov < cs -> 99 <= cs - ov \/ ov <= 1 \/ len <= cs ->
  0 <= start -> start < next_start self txt start.
Proof.
  intros Hov Hcase Hs. unfold next_start. cbv zeta. rewrite chunk_end_eq.
  destruct (Z.ltb_spec (start + cs) len).
  - destruct (last_end (window self txt start)) as [r|] eqn:Hr; simpl.
    + apply last_end_ge in Hr.
      destruct (Z.leb_spec (Z.max start (start + cs - 100) + Z.of_nat r - ov) 0);
        lia.
    + destruct (Z.leb_spec (start + cs - ov) 0); lia.
  - simpl. destruct (Z.leb_spec (start + cs - ov) 0); lia.
Qed.

End loop.

(** X6: every chunk that [chunk_text] returns is the stripped slice of
    the normalised text between its [start_char] and [end_char], is at
    least [min_chunk_size] characters long, and records its length as
    [chunk_size]. *)
Theorem chunk_text_chunks (self : config) (fuel : nat) (text : str)
    (metadata : gmap string scalar) (chunks : list DocumentChunk) :
  chunk_text self fuel text metadata = Some chunks ->
  Forall (fun c =>
            exists st e : Z,
              start_char c = Some st /\ end_char c = Some e
              /\ 0 <= st < Z.of_nat (length (clean_text text))
              /\ Chunker.text c = strip (slice (clean_text text) st e)
              /\ min_chunk_size self <= Z.of_nat (length (Chunker.text c))
              /\ Chunker.metadata c !! "chunk_size"
                 = Some (SInt (Z.of_nat (length (Chunker.text c)))))
    chunks.
Proof.
  unfold chunk_text.
  apply chunk_loop_Forall; [|done]. intros start id c Hs Hlen Hc.
  pose proof (make_chunk_start_char _ _ _ _ _ _ _ Hc) as (Hst & He & _).
  pose proof (make_chunk_spec _ _ _ _ _ _ _ Hc) as (Ht & Hmin & Hsz & _).
  by eexists _, _.
Qed.

Lemma chunk_text_chunks_witness :
  exists chunks : list DocumentChunk,
    chunk_text plain_config 10 long_word test_meta = Some chunks
    /\ Forall (fun c =>
                 exists st e : Z,
                   start_char c = Some st /\ end_char c = Some e
                   /\ 0 <= st < Z.of_nat (length (clean_text long_word))
                   /\ Chunker.text c = strip (slice (clean_text long_word) st e)
                   /\ min_chunk_size plain_config
                      <= Z.of_nat (length (Chunker.text c))
                   /\ Chunker.metadata c !! "chunk_size"
                      = Some (SInt (Z.of_nat (length (Chunker.text c)))))
         chunks.
Proof.
  destruct (chunk_text plain_config 10 long_word test_meta) as [chunks|]
    eqn:Hrun; [|refute_none Hrun].
  exists chunks. split; [reflexivity|].
  exact (chunk_text_chunks plain_config 10 long_word test_meta chunks Hrun).
Defined.

(** X7: the chunks that [chunk_text] returns are numbered 0, 1, 2, ...
    in the order of the list, without gaps (dropped chunks take no
    number), and [chunk_index] in the metadata equals [chunk_id]. *)
Theorem chunk_text_ids (self : config) (fuel : nat) (text : str)
    (metadata : gmap string scalar) (chunks : list DocumentChunk)
    (i : nat) (c : DocumentChunk) :
  chunk_text self fuel text metadata = Some chunks ->
  chunks !! i = Some c ->
  chunk_id c = Z.of_nat i
  /\ Chunker.metadata c !! "chunk_index" = Some (SInt (Z.of_nat i)).
Proof.
  intros Hrun Hi.
  exact (chunk_loop_ids _ _ _ _ _ _ _ Hrun i c Hi).
Qed.

Lemma chunk_text_ids_witness :
  exists (chunks : list DocumentChunk) (c : DocumentChunk),
    chunk_text plain_config 10 long_word test_meta = Some chunks
    /\ chunks !! 2%nat = Some c
    /\ chunk_id c = Z.of_nat 2
    /\ Chunker.metadata c !! "chunk_index" = Some (SInt (Z.of_nat 2)).
Proof.
  destruct (chunk_text plain_config 10 long_word test_meta) as [chunks|]
    eqn:Hrun; [|refute_none Hrun].
  destruct (chunks !! 2%nat) as [c|] eqn:Hc.
  - exists chunks, c. split; [reflexivity|]. split; [exact Hc|].
    exact (chunk_text_ids plain_config 10 long_word test_meta chunks 2 c
             Hrun Hc).
  - exfalso.
    assert (H : from_option (fun _ => true) false
                  (chunk_text plain_config 10 long_word test_meta
                   ≫= (fun l : list DocumentChunk => l !! 2%nat)) = true)
      by (vm_compute; reflexivity).
    rewrite Hrun in H. simpl in H. rewrite Hc in H. discriminate H.
Defined.

(** X8: every key of the document's metadata other than the four that
    [chunk_text] sets ([chunk_index], [start_char], [end_char],
    [chunk_size]) has in every chunk the value it has for the document;
    so the [source] of the document is the [source] of its chunks. *)
Theorem chunk_text_keeps_metadata (self : config) (fuel : nat) (text : str)
    (metadata : gmap string scalar) (chunks : list DocumentChunk) :
  chunk_text self fuel text metadata = Some chunks ->
  Forall (fun c => forall key : string,
              key ∉ chunk_keys ->
              Chunker.metadata c !! key = metadata !! key) chunks.
Proof.
  unfold chunk_text.
  apply chunk_loop_Forall; [|done]. intros start id c _ _ Hc.
  by pose proof (make_chunk_spec _ _ _ _ _ _ _ Hc) as (_ & _ & _ & _ & ?).
Qed.

Lemma chunk_text_keeps_metadata_witness :
  exists chunks : list DocumentChunk,
    chunk_text plain_config 10 long_word test_meta = Some chunks
    /\ Forall (fun c => forall key : string,
                   key ∉ chunk_keys ->
                   Chunker.metadata c !! key = test_meta !! key) chunks.
Proof.
  destruct (chunk_text plain_config 10 long_word test_meta) as [chunks|]
    eqn:Hrun; [|refute_none Hrun].
  exists chunks. split; [reflexivity|].
  exact (chunk_text_keeps_metadata plain_config 10 long_word test_meta
           chunks Hrun).
Defined.

(** X9: with a positive [chunk_size], every chunk returned ends after
    its start and at most [chunk_size + 100] characters after it, and
    its text is at most [chunk_size + 100] characters long. *)
Theorem chunk_text_chunk_bounds (self : config) (fuel : nat) (text : str)
    (metadata : gmap string scalar) (chunks : list DocumentChunk) :
  0 < chunk_size self ->
  chunk_text self fuel text metadata = Some chunks ->
  Forall (fun c =>
            exists st e : Z,
              start_char c = Some st /\ end_char c = Some e
              /\ st < e <= st + chunk_size self + 100
              /\ Z.of_nat (length (Chunker.text c)) <= chunk_size self + 100)
    chunks.
Proof.
  intros Hcs. unfold chunk_text.
  apply chunk_loop_Forall; [|done]. intros start id c Hs Hlen Hc.
  pose proof (make_chunk_start_char _ _ _ _ _ _ _ Hc) as (Hst & He & _).
  pose proof (make_chunk_spec _ _ _ _ _ _ _ Hc) as (Ht & _).
  pose proof (chunk_end_bounds self (clean_text text) start Hs Hcs) as Hb.
  eexists _, _. split; [done|]. split; [done|]. split; [done|].
  rewrite Ht.
  pose proof (strip_length
                (slice (clean_text text) start
                   (fst (chunk_end self (clean_text text) start)))).
  pose proof (slice_length_nonneg (clean_text text) start
                (fst (chunk_end self (clean_text text) start))
                ltac:(lia) ltac:(lia)).
  lia.
Qed.

Lemma chunk_text_chunk_bounds_witness :
  exists chunks : list DocumentChunk,
    0 < chunk_size plain_config
    /\ chunk_text plain_config 10 long_word test_meta = Some chunks
    /\ Forall (fun c =>
                 exists st e : Z,
                   start_char c = Some st /\ end_char c = Some e
                   /\ st < e <= st + chunk_size plain_config + 100
                   /\ Z.of_nat (length (Chunker.text c))
                      <= chunk_size plain_config + 100)
         chunks.
Proof.
  destruct (chunk_text plain_config 10 long_word test_meta) as [chunks|]
    eqn:Hrun; [|refute_none Hrun].
  exists chunks. split; [done|]. split; [reflexivity|].
  exact (chunk_text_chunk_bounds plain_config 10 long_word test_meta chunks
           ltac:(done) Hrun).
Defined.

(** X10: [chunk_text] returns, within as many iterations as the
    normalised text has characters, whenever [chunk_overlap <
    chunk_size] and one of these holds: the step [chunk_size -
    chunk_overlap] is at least 99 (as for the defaults 1000 and 200),
    the overlap is at most 1, or the normalised text is not longer than
    [chunk_size]. *)
Theorem chunk_text_returns (self : config) (fuel : nat) (text : str)
    (metadata : gmap string scalar) :
  chunk_overlap self < chunk_size self ->
  99 <= chunk_size self - chunk_overlap self
  \/ chunk_overlap self <= 1
  \/ Z.of_nat (length (clean_text text)) <= chunk_size self ->
  (length (clean_text text) <= fuel)%nat ->
  exists chunks : list DocumentChunk,
    chunk_text self fuel text metadata = Some chunks.
Proof.
  intros Hov Hcase Hfuel. unfold chunk_text.
  apply chunk_loop_returns_advancing; [|done|lia].
  intros start Hs _. by apply next_start_advances.
Qed.

Lemma chunk_text_returns_witness :
  chunk_overlap plain_config < chunk_size plain_config
  /\ (99 <= chunk_size plain_config - chunk_overlap plain_config
      \/ chunk_overlap plain_config <= 1
      \/ Z.of_nat (length (clean_text (s "short text")))
         <= chunk_size plain_config)
  /\ (length (clean_text (s "short text")) <= 10)%nat
  /\ exists chunks : list DocumentChunk,
       chunk_text plain_config 10 (s "short text") test_meta = Some chunks.
Proof.
  assert (H1 : chunk_overlap plain_config < chunk_size plain_config) by done.
  assert (H2 : 99 <= chunk_size plain_config - chunk_overlap plain_config
               \/ chunk_overlap plain_config <= 1
               \/ Z.of_nat (length (clean_text (s "short text")))
                  <= chunk_size plain_config).
  { right. right. vm_compute. discriminate. }
  assert (H3 : (length (clean_text (s "short text")) <= 10)%nat).
  { vm_compute. lia. }
  split; [exact H1|]. split; [exact H2|]. split; [exact H3|].
  exact (chunk_text_returns plain_config 10 (s "short text") test_meta
           H1 H2 H3).
Defined.

(** X11: a text whose normalised form is shorter than [min_chunk_size]
    gives no chunk: whenever [chunk_text] returns, it returns the empty
    list. *)
Theorem chunk_text_short_text (self : config) (fuel : nat) (text : str)
    (metadata : gmap string scalar) (chunks : list DocumentChunk) :
  Z.of_nat (length (clean_text text)) < min_chunk_size self ->
  chunk_text self fuel text metadata = Some chunks ->
  chunks = [].
Proof.
  intros Hshort Hrun. unfold chunk_text in Hrun.
  assert (H : Forall (fun _ => False) chunks).
  { eapply chunk_loop_Forall; [|done|exact Hrun].
    intros start id c _ _ Hc.
    pose proof (make_chunk_spec _ _ _ _ _ _ _ Hc) as (Ht & Hmin & _).
    rewrite Ht in Hmin.
    pose proof (strip_length
                  (slice (clean_text text) start
                     (fst (chunk_end self (clean_text text) start)))).
    pose proof (slice_length (clean_text text) start
                  (fst (chunk_end self (clean_text text) start))).
    lia. }
  destruct H; done.
Qed.

Lemma chunk_text_short_text_witness :
  Z.of_nat (length (clean_text (s "Short text only 30 chars long")))
  < min_chunk_size
      {| chunk_size := 100; chunk_overlap := 20; min_chunk_size := 50 |}
  /\ chunk_text
       {| chunk_size := 100; chunk_overlap := 20; min_chunk_size := 50 |}
       5 (s "Short text only 30 chars long") test_meta
     = Some [].
Proof.
  assert (H : Z.of_nat (length (clean_text (s "Short text only 30 chars long")))
              < min_chunk_size
                  {| chunk_size := 100; chunk_overlap := 20;
                     min_chunk_size := 50 |})
    by (vm_compute; reflexivity).
  split; [exact H|].
  destruct (chunk_text
              {| chunk_size := 100; chunk_overlap := 20;
                 min_chunk_size := 50 |}
              5 (s "Short text only 30 chars long") test_meta)
    as [chunks|] eqn:Hrun; [|refute_none Hrun].
  f_equal.
  exact (chunk_text_short_text _ 5
           (s "Short text only 30 chars long") test_meta chunks H Hrun).
Defined.

(** X12: for an input made of white space and of characters outside the
    allow-list only (the empty input among them) [chunk_text] returns
    the empty list at once, whatever the configuration. *)
Theorem chunk_text_blank (self : config) (fuel : nat) (text : str)
    (metadata : gmap string scalar) :
  Forall (fun c => removable c = true) text ->
  chunk_text self fuel text metadata = Some [].
Proof.
  intros H. apply clean_text_nil in H. unfold chunk_text. rewrite H.
  by destruct fuel.
Qed.

Lemma chunk_text_blank_witness :
  Forall (fun c => removable c = true) (s "  @ * ")
  /\ chunk_text stuck_config 0 (s "  @ * ") test_meta = Some [].
Proof.
  assert (H : Forall (fun c => removable c = true) (s "  @ * ")).
  { repeat (constructor; [reflexivity|]). constructor. }
  split; [exact H|].
  exact (chunk_text_blank stuck_config 0 (s "  @ * ") test_meta H).
Defined.

End ChunkerExtra.

(** ** The retriever: further properties *)

Module RetrieverExtra.
Import Text Chunker Retriever Aux Aux2 RetrieverFacts.

Lemma rejected_no_filter (source_filter : option string)
    (md : gmap string scalar) :
  truthy source_filter = false -> rejected source_filter md = inr false.
Proof. unfold rejected. by intros ->. Qed.

(** Without a filter the loop never fails. *)
Lemma collect_no_filter (k : Z) (source_filter : option string)
    (cands : list candidate) :
  truthy source_filter = false ->
  forall acc : list RetrievedDocument,
    exists docs, collect k source_filter cands acc = inr docs.
Proof.
  intros Hf. induction cands as [|c cands IH]; intros acc; cbn [collect].
  - by eexists.
  - rewrite (rejected_no_filter _ _ Hf).
    destruct (k <=? _); [by eexists|apply IH].
Qed.

Lemma filter_accepted_no_filter (source_filter : option string)
    (cands : list candidate) :
  truthy source_filter = false ->
  filter (fun c => accepted source_filter c = true) cands = cands.
Proof.
  intros Hf. induction cands as [|c cands IH]; [done|].
  rewrite filter_cons_True, IH; [done|].
  unfold accepted. by rewrite (rejected_no_filter _ _ Hf).
Qed.

Lemma collect_ext (k : Z) (f g : option string) (cands : list candidate) :
  (forall md, rejected f md = rejected g md) ->
  forall acc, collect k f cands acc = collect k g cands acc.
Proof.
  intros Hfg. induction cands as [|c cands IH]; intros acc; cbn [collect];
    [done|].
  rewrite Hfg. destruct (rejected g c.1.2) as [e|[|]]; [done|apply IH|].
  destruct (k <=? _); [done|apply IH].
Qed.

Lemma candidates_length (r : QueryResult) :
  length (candidates r)
  = Nat.min (Nat.min (length (documents r)) (length (metadatas r)))
      (length (distances r)).
Proof. unfold candidates. by rewrite !length_zip_with. Qed.

(** X13: without a source filter ([None] or the empty string),
    [retrieve] asks the index for exactly [k] results, where [k] is
    [top_k or self.top_k], and, the two collaborators answering, returns
    the documents of the first candidates in the order of the index, [k]
    of them at most (one when [k] is below one); it does not fail. *)
Theorem retrieve_without_filter (self : DocumentRetriever)
    (query_text : string) (top_k_arg : option Z)
    (source_filter : option string) (embedding : list Q)
    (results : QueryResult) :
  truthy source_filter = false ->
  generate_embedding self query_text = inr embedding ->
  query self embedding (effective_k self top_k_arg) = inr results ->
  retrieve self query_text top_k_arg source_filter
  = inr (map to_document
           (take (Z.to_nat (Z.max 1 (effective_k self top_k_arg)))
              (candidates results))).
Proof.
  intros Hf Hemb Hq. unfold retrieve. cbv zeta.
  rewrite Hemb, Hf, Hq.
  destruct (collect_no_filter (effective_k self top_k_arg) source_filter
              (candidates results) Hf []) as [docs Hdocs].
  rewrite Hdocs. f_equal.
  apply collect_take in Hdocs; [|simpl; lia].
  rewrite app_nil_l, Nat.sub_0_r in Hdocs.
  by rewrite (filter_accepted_no_filter _ _ Hf) in Hdocs.
Qed.

Lemma retrieve_without_filter_witness :
  truthy None = false
  /\ generate_embedding demo_retriever "5G architecture" = inr [(1 # 1)%Q]
  /\ query demo_retriever [(1 # 1)%Q] (effective_k demo_retriever (Some 1))
     = inr two_records
  /\ retrieve demo_retriever "5G architecture" (Some 1) None
     = inr (map to_document
              (take (Z.to_nat (Z.max 1 (effective_k demo_retriever (Some 1))))
                 (candidates two_records))).
Proof.
  split; [reflexivity|]. split; [reflexivity|]. split; [reflexivity|].
  apply (retrieve_without_filter demo_retriever "5G architecture" (Some 1)
           None [(1 # 1)%Q] two_records); reflexivity.
Defined.

(** X14: [retrieve] never returns more documents than the index
    returned rows (the shortest of the three parallel lists), nor more
    than [max 1 k]: an answer is not padded. *)
Theorem retrieve_not_padded (self : DocumentRetriever)
    (query_text : string) (top_k_arg : option Z)
    (source_filter : option string) (docs : list RetrievedDocument) :
  retrieve self query_text top_k_arg source_filter = inr docs ->
  exists (embedding : list Q) (n : Z) (results : QueryResult),
    generate_embedding self query_text = inr embedding
    /\ query self embedding n = inr results
    /\ (length docs
        <= Nat.min (Z.to_nat (Z.max 1 (effective_k self top_k_arg)))
             (Nat.min (Nat.min (length (documents results))
                         (length (metadatas results)))
                (length (distances results))))%nat.
Proof.
  unfold retrieve. cbv zeta.
  destruct (generate_embedding self query_text) as [e|embedding]; [done|].
  destruct (query self embedding _) as [e|results] eqn:Hq; [done|].
  intros Hrun. apply collect_take in Hrun; [|simpl; lia].
  rewrite app_nil_l, Nat.sub_0_r in Hrun.
  eexists embedding, _, results. split; [done|]. split; [exact Hq|].
  subst docs. rewrite length_map, length_take, <- candidates_length.
  pose proof (sublist_length _ _
                (sublist_filter (fun c => accepted source_filter c = true)
                   (candidates results))).
  lia.
Qed.

Lemma retrieve_not_padded_witness :
  exists docs : list RetrievedDocument,
    retrieve demo_retriever "5G architecture" (Some 3) None = inr docs
    /\ exists (embedding : list Q) (n : Z) (results : QueryResult),
         generate_embedding demo_retriever "5G architecture" = inr embedding
         /\ query demo_retriever embedding n = inr results
         /\ (length docs
             <= Nat.min
                  (Z.to_nat (Z.max 1 (effective_k demo_retriever (Some 3%Z))))
                  (Nat.min (Nat.min (length (documents results))
                              (length (metadatas results)))
                     (length (distances results))))%nat.
Proof.
  destruct (retrieve demo_retriever "5G architecture" (Some 3) None)
    as [e|docs] eqn:Hrun.
  - exfalso.
    assert (H : match retrieve demo_retriever "5G architecture" (Some 3) None
                with inr _ => true | inl _ => false end = true)
      by (vm_compute; reflexivity).
    rewrite Hrun in H. discriminate H.
  - exists docs. split; [reflexivity|].
    exact (retrieve_not_padded demo_retriever "5G architecture" (Some 3) None
             docs Hrun).
Defined.

(** X15: the empty string as [source_filter] is no filter: [retrieve]
    answers exactly what it answers for [None]. *)
Theorem retrieve_empty_filter (self : DocumentRetriever)
    (query_text : string) (top_k_arg : option Z) :
  retrieve self query_text top_k_arg (Some ""%string)
  = retrieve self query_text top_k_arg None.
Proof.
  unfold retrieve. cbv zeta.
  destruct (generate_embedding self query_text) as [e|embedding]; [done|].
  change (truthy (Some ""%string)) with false.
  change (truthy None) with false. cbv iota.
  destruct (query self embedding _) as [e|results]; [done|].
  by apply collect_ext.
Qed.

End RetrieverExtra.

(** ** The extractor registry: further properties *)

Module ExtractorExtra.
Import Text Chunker Extractor Aux Aux2 ExtractorFacts.

Lemma detect_processors_facts (env : environment) :
  let self := _detect_processors env in
  (doc self = true <-> doc_methods self <> [])
  /\ NoDup (doc_methods self)
  /\ doc_methods self `sublist_of` preference
  /\ (win32com ∈ doc_methods self ->
      platform_win32 env = true /\ import_win32com env = true)
  /\ (antiword ∈ doc_methods self <-> antiword_runs env = true)
  /\ (textract ∈ doc_methods self <-> import_textract env = true).
Proof.
  cbv zeta. destruct env as [p d a t w c].
  destruct a, t, w, c; cbn; unfold preference;
    (split; [split; intros H; first [done|by destruct H]|]);
    (split; [by apply (bool_decide_unpack _)|]);
    (split; [repeat first [apply sublist_nil_l | apply sublist_skip
                          | apply sublist_cons]|]);
    rewrite ?elem_of_cons, ?elem_of_nil; intuition congruence.
Qed.

(** X16: the processors that [_detect_processors] reports are
    consistent: [doc] is set exactly when some method for [.doc] files
    was found, the methods are listed without repetition in the order
    antiword, textract, win32com, and win32com is listed only on the
    win32 platform. *)
Theorem detect_processors_consistent (env : environment) :
  let self := _detect_processors env in
  (doc self = true <-> doc_methods self <> [])
  /\ NoDup (doc_methods self)
  /\ doc_methods self `sublist_of` preference
  /\ (win32com ∈ doc_methods self ->
      platform_win32 env = true /\ import_win32com env = true)
  /\ (antiword ∈ doc_methods self <-> antiword_runs env = true)
  /\ (textract ∈ doc_methods self <-> import_textract env = true).
Proof. apply detect_processors_facts. Qed.

(** With the processors that [_detect_processors] reports, [_load_doc]
    invokes a backend whenever [doc] is set. *)
Lemma load_doc_detected (run_doc : doc_method -> Path -> exn + str)
    (env : environment) (file_path : Path) :
  doc (_detect_processors env) = true ->
  exists m : doc_method,
    invoked (_load_doc run_doc (_detect_processors env) file_path)
    = [DocMethod m].
Proof.
  intros Hd.
  destruct (detect_processors_facts env) as [Hflag _].
  apply Hflag in Hd.
  destruct (select_backend (_detect_processors env)) as [m|] eqn:Hsel.
  - exists m. by apply load_doc_selected.
  - exfalso. apply Hd.
    destruct (select_backend_detected env) as [Heq _].
    rewrite Hsel in Heq.
    by destruct (doc_methods (_detect_processors env)).
Qed.


(** X18: with the processors that [_detect_processors] reports,
    [load_document] fails with its own [RuntimeError], no backend having
    been invoked, exactly when the path exists, its suffix is one of the
    three and no backend was detected for it; the [RuntimeError] of
    [_load_doc] itself is never reached: whenever [doc] is set,
    [_load_doc] invokes a backend. *)
Theorem load_document_unavailable (path_exists : Path -> bool)
    (run_pdf run_docx : Path -> exn + (str * gmap string scalar))
    (run_doc : doc_method -> Path -> exn + str)
    (env : environment) (file_path : Path) :
  let self := _detect_processors env in
  let r := load_document path_exists run_pdf run_docx run_doc self file_path in
  let file_ext := lower (suffix file_path) in
  (outcome r = inl RuntimeError /\ invoked r = []
   <-> path_exists file_path = true
       /\ file_ext ∈ [".pdf"; ".docx"; ".doc"]%string
       /\ detected self file_ext = false)
  /\ (doc self = true ->
      exists m : doc_method,
        invoked (_load_doc run_doc self file_path) = [DocMethod m]).
Proof.
  cbv zeta. split; [|apply load_doc_detected].
  pose proof (load_document_cases path_exists run_pdf run_docx run_doc
                (_detect_processors env) file_path) as Hcases.
  cbv zeta in Hcases.
  destruct Hcases
    as [[Hex ->]|[(Hex & Hext & ->)|[(Hex & Hext & Hdet & ->)
                                    |(Hex & Hext & Hdet & ->)]]].
  - split; [by intros [? _]|]. intros [? _]. congruence.
  - split; [by intros [? _]|]. by intros (_ & ?%Hext & _).
  - done.
  - split; [|intros (_ & _ & ?); congruence].
    intros [_ Hi]. exfalso. revert Hi Hdet. unfold detected.
    destruct (String.eqb (lower (suffix file_path)) ".pdf"); [done|].
    destruct (String.eqb (lower (suffix file_path)) ".docx"); [done|].
    intros Hi Hd.
    destruct (load_doc_detected run_doc env file_path Hd) as [m Hm].
    congruence.
Qed.

(** X19: when [_load_doc] succeeds, its text is the text of the backend
    that the preference order selects, and its metadata has exactly the
    keys [source], [file_path], [format] and [extraction_method], with
    the file's name as [source] and the name of the backend as
    [extraction_method]. *)
Theorem load_doc_metadata (run_doc : doc_method -> Path -> exn + str)
    (self : processors) (file_path : Path) (text : str)
    (md : gmap string scalar) :
  outcome (_load_doc run_doc self file_path) = inr (text, md) ->
  exists m : doc_method,
    select_backend self = Some m
    /\ run_doc m file_path = inr text
    /\ md = <["extraction_method" := SStr (method_name m)]>
              (<["format" := SStr "doc"]>
                 (<["file_path" := SStr (path_str file_path)]>
                    (<["source" := SStr (name file_path)]> ∅)))
    /\ md !! "source" = Some (SStr (name file_path)).
Proof.
  unfold select_backend, preference, _load_doc.
  rewrite !filter_cons, filter_nil.
  destruct (decide (antiword ∈ doc_methods self)) as [Ha|Ha];
    [rewrite (bool_decide_eq_true_2 _ Ha)
    |rewrite (bool_decide_eq_false_2 _ Ha);
     destruct (decide (textract ∈ doc_methods self)) as [Ht|Ht];
       [rewrite (bool_decide_eq_true_2 _ Ht)
       |rewrite (bool_decide_eq_false_2 _ Ht);
        destruct (decide (win32com ∈ doc_methods self)) as [Hw|Hw];
          [rewrite (bool_decide_eq_true_2 _ Hw)
          |rewrite (bool_decide_eq_false_2 _ Hw)]]];
    simpl; try done;
    destruct (run_doc _ file_path) as [cause|text'] eqn:Hrun; simpl;
      try done;
    intros [= <- <-]; eexists; (split; [reflexivity|]);
      (split; [exact Hrun|]); (split; [reflexivity|]); by simplify_map_eq.
Qed.

Lemma load_doc_metadata_witness :
  exists md : gmap string scalar,
    outcome (_load_doc (fun _ _ => inr (s "Legacy text")) 
               (_detect_processors linux_env) old_doc)
    = inr (s "Legacy text", md)
    /\ exists m : doc_method,
         select_backend (_detect_processors linux_env) = Some m
         /\ (fun (_ : doc_method) (_ : Path) => inr (s "Legacy text")
              : exn + str) m old_doc = inr (s "Legacy text")
         /\ md = <["extraction_method" := SStr (method_name m)]>
                   (<["format" := SStr "doc"]>
                      (<["file_path" := SStr (path_str old_doc)]>
                         (<["source" := SStr (name old_doc)]> ∅)))
         /\ md !! "source" = Some (SStr (name old_doc)).
Proof.
  eexists. split; [reflexivity|].
  apply (load_doc_metadata (fun _ _ => inr (s "Legacy text"))
           (_detect_processors linux_env) old_doc (s "Legacy text")).
  reflexivity.
Defined.

End ExtractorExtra.

(** ** Processing a directory *)

Module BatchExtra.
Import Text Chunker Extractor Batch Aux Aux2.

Section process.
Context (path_exists : Path -> bool).
Context (run_pdf run_docx : Path -> exn + (str * gmap string scalar)).
Context (run_doc : doc_method -> Path -> exn + str).
Context (glob : Path -> string -> list Path).
Context (self : UnifiedDocumentProcessor).

Abbreviation process_document' :=
  (process_document path_exists run_pdf run_docx run_doc self).
Abbreviation process_files' :=
  (process_files path_exists run_pdf run_docx run_doc self).
Abbreviation process_directory' :=
  (process_directory path_exists run_pdf run_docx run_doc glob self).

(** The loop processes every file, keeps the chunks of the documents
    that succeed and the names of those that fail. *)
Lemma process_files_spec (fuel : nat) (files : list Path) :
  forall (log0 : list backend) (chunks0 : list DocumentChunk)
         (failed0 : list string)
         (r : list backend * (list DocumentChunk * list string)),
    process_files' fuel files log0 chunks0 failed0 = Some r ->
    exists rs : list (M (list DocumentChunk)),
      Forall2 (fun f d => process_document' fuel f = Some d) files rs
      /\ r = (log0 ++ concat (invoked <$> rs),
              (chunks0 ++ concat (doc_chunks <$> rs),
               failed0 ++ failed_names files rs)).
Proof.
  induction files as [|f files IH]; intros log0 chunks0 failed0 r;
    cbn [process_files].
  - intros [= <-]. exists []. split; [constructor|].
    unfold failed_names. simpl. by rewrite !app_nil_r.
  - destruct (process_document' fuel f) as [[log' [e|chunks]]|] eqn:Hdoc;
      simpl; [| |done].
    + intros Hrun. destruct (IH _ _ _ _ Hrun) as (rs & Hrs & ->).
      exists ((log', inl e) :: rs).
      split; [constructor; [exact Hdoc|exact Hrs]|].
      unfold failed_names. simpl. by rewrite <- !app_assoc.
    + intros Hrun. destruct (IH _ _ _ _ Hrun) as (rs & Hrs & ->).
      exists ((log', inr chunks) :: rs).
      split; [constructor; [exact Hdoc|exact Hrs]|].
      unfold failed_names. simpl. by rewrite <- !app_assoc.
Qed.

Lemma process_directory_spec (fuel : nat) (directory : Path)
    (r : M (list DocumentChunk * list string)) :
  path_exists directory = true ->
  process_directory' fuel directory = Some r ->
  exists rs : list (M (list DocumentChunk)),
    Forall2 (fun f d => process_document' fuel f = Some d)
      (all_files glob directory) rs
    /\ invoked r = concat (invoked <$> rs)
    /\ outcome r = inr (concat (doc_chunks <$> rs),
                        failed_names (all_files glob directory) rs).
Proof.
  intros Hex. unfold process_directory. rewrite Hex. cbn [negb].
  destruct (all_files glob directory) as [|f files] eqn:Hfiles.
  - intros [= <-]. exists []. by repeat split.
  - destruct (process_files' fuel (f :: files) [] [] []) as [r'|] eqn:Hrun;
      [|done].
    simpl. intros [= <-].
    destruct (process_files_spec _ _ _ _ _ _ Hrun) as (rs & Hrs & ->).
    by exists rs.
Qed.

End process.



(** The demonstration directory: the PDF file fails and is named, the
    chunks are those of the legacy file, read by antiword alone. *)
Example process_directory_demo :
  (fun r : M (list DocumentChunk * list string) =>
     (invoked r,
      match outcome r with
      | inr (chunks, failed) => Some (length chunks, failed)
      | inl _ => None
      end))
  <$> process_directory (fun _ => true) demo_run_pdf demo_run_pdf demo_run_doc
        demo_glob demo_processor 40 specs_dir
  = Some ([PdfReader; DocMethod antiword], Some (5%nat, ["bad.pdf"%string])).
Proof. vm_compute. reflexivity. Qed.



(** X22: a document on which [chunk_text] does not return is not
    skipped like a failing one: when the processing of one of the files
    does not return within the fuel, neither does
    [process_directory]. *)
Theorem process_directory_hangs (path_exists : Path -> bool)
    (run_pdf run_docx : Path -> exn + (str * gmap string scalar))
    (run_doc : doc_method -> Path -> exn + str)
    (glob : Path -> string -> list Path)
    (self : UnifiedDocumentProcessor) (fuel : nat) (directory : Path)
    (f : Path) :
  path_exists directory = true ->
  f ∈ all_files glob directory ->
  process_document path_exists run_pdf run_docx run_doc self fuel f = None ->
  process_directory path_exists run_pdf run_docx run_doc glob self fuel
    directory = None.
Proof.
  intros Hex Hf Hnone.
  destruct (process_directory path_exists run_pdf run_docx run_doc glob self
              fuel directory) as [r|] eqn:Hrun; [|done].
  destruct (process_directory_spec _ _ _ _ _ _ _ _ _ Hex Hrun)
    as (rs & Hrs & _).
  apply list_elem_of_lookup in Hf as [i Hi].
  destruct (Forall2_lookup_l _ _ _ _ _ Hrs Hi) as (d & _ & Hd).
  congruence.
Qed.

Lemma process_directory_hangs_witness :
  (fun _ : Path => true) specs_dir = true
  /\ old_doc ∈ all_files demo_glob specs_dir
  /\ process_document (fun _ => true) demo_run_pdf demo_run_pdf
       (fun _ _ => inr stuck_text)
       {| settings := stuck_config;
          available_processors := _detect_processors linux_env |}
       40 old_doc = None
  /\ process_directory (fun _ => true) demo_run_pdf demo_run_pdf
       (fun _ _ => inr stuck_text) demo_glob
       {| settings := stuck_config;
          available_processors := _detect_processors linux_env |}
       40 specs_dir = None.
Proof.
  assert (H1 : old_doc ∈ all_files demo_glob specs_dir).
  { apply elem_of_cons. right. apply elem_of_cons. by left. }
  assert (H2 : process_document (fun _ => true) demo_run_pdf demo_run_pdf
                 (fun _ _ => inr stuck_text)
                 {| settings := stuck_config;
                    available_processors := _detect_processors linux_env |}
                 40 old_doc = None) by (vm_compute; reflexivity).
  split; [reflexivity|]. split; [exact H1|]. split; [exact H2|].
  exact (process_directory_hangs (fun _ => true) demo_run_pdf demo_run_pdf
           (fun _ _ => inr stuck_text) demo_glob _ 40 specs_dir old_doc
           eq_refl H1 H2).
Defined.

End BatchExtra.

(** ** Embedding and storing the chunks *)

Module StoreExtra.
Import Text Chunker Store Aux Aux2 ChunkerFacts ChunkerExtra.

(** *** Batches *)

Lemma concat_batches_take {A : Type} (l : list A) (m : nat) :
  concat ((fun j =>
             take (Nat.min (j * batch_size + batch_size) (length l)
                   - j * batch_size)
               (drop (j * batch_size) l)) <$> seq 0 m)
  = take (m * batch_size) l.
Proof.
  assert (Hpos : (0 < batch_size)%nat) by (unfold batch_size; lia).
  generalize dependent batch_size. intros bs Hpos.
  induction m as [|m IH]; [by rewrite take_0|].
  rewrite seq_S, fmap_app, concat_app, IH. simpl.
  rewrite app_nil_r.
  destruct (le_lt_dec (m * bs + bs) (length l)) as [Hle|Hlt].
  - replace (Nat.min (m * bs + bs) (length l) - m * bs)%nat with bs by lia.
    rewrite take_take_drop. f_equal. lia.
  - rewrite (take_ge l (bs + m * bs)) by lia.
    destruct (le_lt_dec (m * bs) (length l)) as [Hm|Hm].
    + replace (Nat.min (m * bs + bs) (length l) - m * bs)%nat
        with (length l - m * bs)%nat by lia.
      rewrite take_take_drop. apply take_ge. lia.
    + rewrite (drop_ge l) by lia. rewrite take_nil, app_nil_r.
      apply take_ge. lia.
Qed.

Lemma batches_eq {A : Type} (l : list A) :
  batches l
  = (fun j =>
       take (Nat.min (j * batch_size + batch_size) (length l) - j * batch_size)
         (drop (j * batch_size) l))
    <$> seq 0 ((length l + batch_size - 1) / batch_size).
Proof. unfold batches, batch_starts. by rewrite <- list_fmap_compose. Qed.

Lemma batch_count_bounds (n : nat) :
  let m := ((n + batch_size - 1) / batch_size)%nat in
  (n <= m * batch_size)%nat /\ (forall j, j < m -> j * batch_size < n)%nat.
Proof.
  cbv zeta. unfold batch_size.
  pose proof (Nat.div_mod (n + 100 - 1) 100 ltac:(lia)) as Hdm.
  pose proof (Nat.mod_upper_bound (n + 100 - 1) 100 ltac:(lia)) as Hmod.
  split; [lia|]. intros j Hj. nia.
Qed.

(** The batches are the list, cut every hundred elements. *)
Lemma batches_spec {A : Type} (l : list A) :
  concat (batches l) = l
  /\ Forall (fun b => 1 <= length b <= batch_size)%nat (batches l)
  /\ length (batches l) = ((length l + batch_size - 1) / batch_size)%nat.
Proof.
  rewrite batches_eq.
  destruct (batch_count_bounds (length l)) as [Hcover Hstart].
  split; [|split].
  - rewrite concat_batches_take. apply take_ge. lia.
  - apply Forall_fmap, Forall_forall. intros j Hj.
    apply elem_of_seq in Hj as [_ Hj]. simpl in Hj.
    specialize (Hstart j Hj). simpl.
    rewrite length_take, length_drop. unfold batch_size in *. lia.
  - by rewrite length_fmap, length_seq.
Qed.

(** *** The records *)

Lemma map_from_length {A B : Type} (f : nat -> A -> pyerr + B) (l : list A) :
  forall (i : nat) (bs : list B),
    map_from f i l = inr bs -> length bs = length l.
Proof.
  induction l as [|a l IH]; intros i bs; cbn [map_from].
  - by intros [= <-].
  - destruct (f i a) as [e|b]; [done|].
    destruct (map_from f (S i) l) as [e|bs'] eqn:Hrest; [done|].
    intros [= <-]. simpl. f_equal. by eapply IH.
Qed.

Lemma map_from_lookup {A B : Type} (f : nat -> A -> pyerr + B) (l : list A) :
  forall (i : nat) (bs : list B),
    map_from f i l = inr bs ->
    forall (j : nat) (a : A),
      l !! j = Some a ->
      exists b, bs !! j = Some b /\ f (i + j)%nat a = inr b.
Proof.
  induction l as [|a0 l IH]; intros i bs; cbn [map_from]; [done|].
  destruct (f i a0) as [e|b0] eqn:Hb0; [done|].
  destruct (map_from f (S i) l) as [e|bs'] eqn:Hrest; [done|].
  intros [= <-] [|j] a; simpl.
  - intros [= <-]. exists b0. by rewrite Nat.add_0_r.
  - intros Hj. destruct (IH _ _ Hrest j a Hj) as (b & Hb & Hf).
    exists b. split; [done|]. by rewrite <- Nat.add_succ_comm.
Qed.

Lemma make_record_id (i : nat) (chunk : gmap string value) (r : record) :
  make_record i chunk = inr r -> id r = stored_id i.
Proof.
  unfold make_record. cbv zeta.
  destruct (getitem chunk "embedding"); [done|].
  destruct (getitem chunk "text") as [|text]; [done|].
  destruct (getitem chunk "metadata") as [|[| | |md]]; try done.
  destruct (len text); [done|]. by intros [= <-].
Qed.

Lemma stored_id_inj : Inj (=) (=) stored_id.
Proof.
  intros i j H. unfold stored_id in H. cbn [String.append] in H.
  injection H as H. exact (pretty_nat_inj _ _ H).
Qed.

Lemma map_from_fails {A B : Type} (f : nat -> A -> pyerr + B) (l : list A) :
  forall (i : nat) (e : pyerr),
    map_from f i l = inl e ->
    exists (j : nat) (a : A), l !! j = Some a /\ f (i + j)%nat a = inl e.
Proof.
  induction l as [|a0 l IH]; intros i e; cbn [map_from]; [done|].
  destruct (f i a0) as [e0|b0] eqn:Hb0.
  - intros [= <-]. exists O, a0. by rewrite Nat.add_0_r.
  - destruct (map_from f (S i) l) as [e'|bs'] eqn:Hrest; [|done].
    intros [= <-]. destruct (IH _ _ Hrest) as (j & a & Hj & Hf).
    exists (S j), a. split; [done|]. by rewrite <- Nat.add_succ_comm.
Qed.

(** *** The calls of [collection.add] *)

Section add.
Context {collection : Type}.
Context (collection_add : collection -> list record
                          -> collection * (pyerr + unit)).

(** The loop hands over the batches one after the other and stops at
    the first call that raises. *)
Lemma add_batches_spec (todo : list (list record)) :
  forall (coll : collection) (made : list (list record)),
    exists now : list (list record),
      handed (add_batches collection_add coll todo made) = made ++ now
      /\ now `prefix_of` todo
      /\ after (add_batches collection_add coll todo made)
         = collection_after collection_add coll now
      /\ match result (add_batches collection_add coll todo made) with
         | inr _ => now = todo
         | inl e =>
             exists (before : list (list record)) (batch : list record),
               now = before ++ [batch]
               /\ snd (collection_add
                         (collection_after collection_add coll before) batch)
                  = inl e
         end.
Proof.
  induction todo as [|batch rest IH]; intros coll made; cbn [add_batches].
  - exists []. by rewrite app_nil_r.
  - destruct (collection_add coll batch) as [coll' [e|u]] eqn:Hadd.
    + exists [batch]. cbn [handed after result]. split; [done|].
      split; [apply prefix_cons, prefix_nil|].
      split; [unfold collection_after; simpl; by rewrite Hadd|].
      exists [], batch. split; [done|]. simpl. by rewrite Hadd.
    + destruct (IH coll' (made ++ [batch])) as (now & Hh & Hp & Ha & Hr).
      exists (batch :: now). rewrite Hh, Ha.
      split; [by rewrite <- app_assoc|].
      split; [by apply prefix_cons|].
      split; [unfold collection_after; simpl; by rewrite Hadd|].
      destruct (result (add_batches collection_add coll' rest
                          (made ++ [batch]))) as [e|_].
      * destruct Hr as (before & b & -> & Hb).
        exists (batch :: before), b. split; [done|].
        unfold collection_after in *. simpl. by rewrite Hadd.
      * by rewrite Hr.
Qed.

(** A run of [add_chunks] that returns has built every record and handed
    over every batch. *)
Lemma add_chunks_returns (coll : collection)
    (chunks : list (gmap string value)) :
  result (add_chunks collection_add coll chunks) = inr tt ->
  exists records : list record,
    map_from make_record 0 chunks = inr records
    /\ handed (add_chunks collection_add coll chunks) = batches records
    /\ after (add_chunks collection_add coll chunks)
       = collection_after collection_add coll (batches records).
Proof.
  unfold add_chunks.
  destruct (map_from make_record 0 chunks) as [e|records]; [done|].
  intros Hres. exists records. split; [done|].
  destruct (add_batches_spec (batches records) coll [])
    as (now & Hh & _ & Ha & Hr).
  rewrite Hres in Hr. subst now. by rewrite Hh, Ha.
Qed.

(** A run of [add_chunks] that fails: while the records are built, or
    in a call of [collection.add]. *)
Lemma add_chunks_fails (coll : collection)
    (chunks : list (gmap string value)) (e : pyerr) :
  result (add_chunks collection_add coll chunks) = inl e ->
  (handed (add_chunks collection_add coll chunks) = []
   /\ after (add_chunks collection_add coll chunks) = coll
   /\ exists (i : nat) (chunk : gmap string value),
        chunks !! i = Some chunk /\ make_record i chunk = inl e)
  \/ (exists (records : list record) (before : list (list record))
             (batch : list record),
        map_from make_record 0 chunks = inr records
        /\ handed (add_chunks collection_add coll chunks) = before ++ [batch]
        /\ (before ++ [batch]) `prefix_of` batches records
        /\ snd (collection_add
                  (collection_after collection_add coll before) batch)
           = inl e
        /\ after (add_chunks collection_add coll chunks)
           = collection_after collection_add coll (before ++ [batch])).
Proof.
  unfold add_chunks.
  destruct (map_from make_record 0 chunks) as [e'|records] eqn:Hrec.
  - cbn [handed after result]. intros [= <-]. left.
    split; [done|]. split; [done|].
    destruct (map_from_fails _ _ _ _ Hrec) as (j & a & Hj & Hf).
    by exists j, a.
  - intros Hres. right.
    destruct (add_batches_spec (batches records) coll [])
      as (now & Hh & Hp & Ha & Hr).
    rewrite Hres in Hr. destruct Hr as (before & batch & -> & Hb).
    exists records, before, batch. by rewrite Hh, Ha.
Qed.

End add.

(** X23: when [add_chunks] succeeds it has handed every chunk to the
    collection exactly once and in order, in batches of at least one
    and at most a hundred records; it has made [ceil(n / 100)] calls for
    [n] chunks, none for an empty list, and leaves the collection as
    these calls leave it. *)
Theorem add_chunks_batches {collection : Type}
    (collection_add : collection -> list record
                      -> collection * (pyerr + unit))
    (coll : collection) (chunks : list (gmap string value)) :
  result (add_chunks collection_add coll chunks) = inr tt ->
  let calls := handed (add_chunks collection_add coll chunks) in
  length (concat calls) = length chunks
  /\ (forall (i : nat) (chunk : gmap string value),
        chunks !! i = Some chunk ->
        exists r, concat calls !! i = Some r
                  /\ make_record i chunk = inr r)
  /\ Forall (fun b => 1 <= length b <= 100)%nat calls
  /\ length calls = ((length chunks + 99) / 100)%nat
  /\ after (add_chunks collection_add coll chunks)
     = collection_after collection_add coll calls.
Proof.
  intros Hres. cbv zeta.
  destruct (add_chunks_returns collection_add coll chunks Hres)
    as (records & Hrec & -> & ->).
  destruct (batches_spec records) as (Hcat & Hsize & Hcount).
  rewrite Hcat. pose proof (map_from_length _ _ _ _ Hrec) as Hlen.
  split; [done|]. split; [|split; [|split]].
  - intros i chunk Hi.
    by destruct (map_from_lookup _ _ _ _ Hrec i chunk Hi) as (r & ? & ?);
      exists r.
  - exact Hsize.
  - rewrite Hcount, Hlen. unfold batch_size. f_equal. lia.
  - done.
Qed.

Lemma add_chunks_batches_witness :
  result (add_chunks demo_add [] demo_embedded) = inr tt
  /\ let calls := handed (add_chunks demo_add [] demo_embedded) in
     length (concat calls) = length demo_embedded
     /\ (forall (i : nat) (chunk : gmap string value),
           demo_embedded !! i = Some chunk ->
           exists r, concat calls !! i = Some r
                     /\ make_record i chunk = inr r)
     /\ Forall (fun b => 1 <= length b <= 100)%nat calls
     /\ length calls = ((length demo_embedded + 99) / 100)%nat
     /\ after (add_chunks demo_add [] demo_embedded)
        = collection_after demo_add [] calls.
Proof.
  assert (H : result (add_chunks demo_add [] demo_embedded) = inr tt)
    by (vm_compute; reflexivity).
  split; [exact H|].
  exact (add_chunks_batches demo_add [] demo_embedded H).
Defined.

(** X24: the identifiers that [add_chunks] gives the records of one
    call are [id_0], [id_1], ... by position in the list, whatever the
    chunks hold; they are pairwise distinct. *)
Theorem add_chunks_ids {collection : Type}
    (collection_add : collection -> list record
                      -> collection * (pyerr + unit))
    (coll : collection) (chunks : list (gmap string value)) :
  result (add_chunks collection_add coll chunks) = inr tt ->
  let calls := handed (add_chunks collection_add coll chunks) in
  id <$> concat calls = stored_id <$> seq 0 (length chunks)
  /\ NoDup (id <$> concat calls).
Proof.
  intros Hres. cbv zeta.
  destruct (add_chunks_returns collection_add coll chunks Hres)
    as (records & Hrec & -> & _).
  destruct (batches_spec records) as (-> & _ & _).
  assert (Hids : id <$> records = stored_id <$> seq 0 (length chunks)).
  { clear Hres. revert records Hrec. generalize 0%nat.
    induction chunks as [|c chunks IH]; intros i records; cbn [map_from].
    - by intros [= <-].
    - destruct (make_record i c) as [e|r] eqn:Hr; [done|].
      destruct (map_from make_record (S i) chunks) as [e|rs] eqn:Hrs; [done|].
      intros [= <-]. simpl. f_equal; [by apply make_record_id in Hr|].
      by apply IH. }
  split; [done|]. rewrite Hids.
  apply NoDup_fmap_2; [apply stored_id_inj|apply NoDup_seq].
Qed.

Lemma add_chunks_ids_witness :
  result (add_chunks demo_add [] demo_embedded) = inr tt
  /\ let calls := handed (add_chunks demo_add [] demo_embedded) in
     id <$> concat calls = stored_id <$> seq 0 (length demo_embedded)
     /\ NoDup (id <$> concat calls).
Proof.
  assert (H : result (add_chunks demo_add [] demo_embedded) = inr tt)
    by (vm_compute; reflexivity).
  split; [exact H|].
  exact (add_chunks_ids demo_add [] demo_embedded H).
Defined.

(** The identifiers of the two demonstration records. *)
Example add_chunks_demo_ids :
  id <$> concat (handed (add_chunks demo_add [] demo_embedded))
  = ["id_0"%string; "id_1"%string].
Proof. vm_compute. reflexivity. Qed.

(** X28: when [add_chunks] fails, either the record of some chunk cannot
    be built (a key is missing) and then [collection.add] has not been
    called and the collection is as it was, or a call of
    [collection.add] has raised: the batches handed over are then an
    initial part of the batches, the last of them being the one whose
    call raised, the exception of that call is the outcome, the later
    batches are never handed over, and the collection is left as the
    calls made have left it, the batches accepted before staying in
    it. *)
Theorem add_chunks_stops_at_failure {collection : Type}
    (collection_add : collection -> list record
                      -> collection * (pyerr + unit))
    (coll : collection) (chunks : list (gmap string value)) (e : pyerr) :
  result (add_chunks collection_add coll chunks) = inl e ->
  (handed (add_chunks collection_add coll chunks) = []
   /\ after (add_chunks collection_add coll chunks) = coll
   /\ exists (i : nat) (chunk : gmap string value),
        chunks !! i = Some chunk /\ make_record i chunk = inl e)
  \/ (exists (records : list record) (before : list (list record))
             (batch : list record),
        map_from make_record 0 chunks = inr records
        /\ handed (add_chunks collection_add coll chunks) = before ++ [batch]
        /\ (before ++ [batch]) `prefix_of` batches records
        /\ snd (collection_add
                  (collection_after collection_add coll before) batch)
           = inl e
        /\ after (add_chunks collection_add coll chunks)
           = collection_after collection_add coll (before ++ [batch])).
Proof. apply add_chunks_fails. Qed.

Lemma add_chunks_stops_at_failure_witness :
  result (add_chunks refusing_add [] demo_embedded)
  = inl (OtherError "InvalidDimensionException")
  /\ ((handed (add_chunks refusing_add [] demo_embedded) = []
       /\ after (add_chunks refusing_add [] demo_embedded) = []
       /\ exists (i : nat) (chunk : gmap string value),
            demo_embedded !! i = Some chunk
            /\ make_record i chunk
               = inl (OtherError "InvalidDimensionException"))
      \/ (exists (records : list record) (before : list (list record))
                 (batch : list record),
            map_from make_record 0 demo_embedded = inr records
            /\ handed (add_chunks refusing_add [] demo_embedded)
               = before ++ [batch]
            /\ (before ++ [batch]) `prefix_of` batches records
            /\ snd (refusing_add (collection_after refusing_add [] before)
                      batch)
               = inl (OtherError "InvalidDimensionException")
            /\ after (add_chunks refusing_add [] demo_embedded)
               = collection_after refusing_add [] (before ++ [batch]))).
Proof.
  assert (H : result (add_chunks refusing_add [] demo_embedded)
              = inl (OtherError "InvalidDimensionException"))
    by (vm_compute; reflexivity).
  split; [exact H|].
  exact (add_chunks_stops_at_failure refusing_add [] demo_embedded _ H).
Defined.

(** A chunk without an embedding fails before any call. *)
Example add_chunks_missing_embedding :
  (fun r : run (list record) => (handed r, result r))
    (add_chunks demo_add [] demo_dicts)
  = ([], inl (KeyError "embedding")).
Proof. vm_compute. reflexivity. Qed.

(** *** Embedding *)

Abbreviation with_embedding :=
  (fun (chunk : gmap string value) (embedding : list Q) =>
     <["embedding" := VVec embedding]> chunk).

(** The comprehension over the texts: all of them, or the [KeyError] of
    the first chunk without one. *)
Lemma get_texts (chunks : list (gmap string value)) (i : nat) :
  (Forall (fun c => is_Some (c !! "text")) chunks
   /\ map_from (fun _ chunk => getitem chunk "text") i chunks
      = inr (texts_of chunks))
  \/ (Exists (fun c => c !! "text" = None) chunks
      /\ map_from (fun _ chunk => getitem chunk "text") i chunks
         = inl (KeyError "text")).
Proof.
  revert i. induction chunks as [|c chunks IH]; intros i.
  - left. by split.
  - cbn [map_from].
    change (texts_of (c :: chunks))
      with (match c !! "text" with
            | Some v => v :: texts_of chunks
            | None => texts_of chunks
            end).
    destruct (c !! "text") as [v|] eqn:Hc.
    + assert (getitem c "text" = inr v) as ->
        by (unfold getitem; by rewrite Hc).
      destruct (IH (S i)) as [[Hall ->]|[Hex ->]].
      * left. split; [|reflexivity].
        constructor; [by rewrite Hc|done].
      * right. split; [by apply Exists_cons_tl|reflexivity].
    + assert (getitem c "text" = inl (KeyError "text")) as ->
        by (unfold getitem; by rewrite Hc).
      right. split; [by apply Exists_cons_hd|reflexivity].
Qed.

Lemma Forall_not_Exists_text (chunks : list (gmap string value)) :
  Forall (fun c => is_Some (c !! "text")) chunks ->
  Exists (fun c => c !! "text" = None) chunks -> False.
Proof.
  intros Hall Hex. apply Exists_exists in Hex as (c & Hin & Hc).
  rewrite Forall_forall in Hall. destruct (Hall c Hin) as [v Hv]. congruence.
Qed.

Lemma embed_chunks_eq (encode : list value -> pyerr + list (list Q))
    (chunks : list (gmap string value)) :
  Forall (fun c => is_Some (c !! "text")) chunks ->
  embed_chunks encode chunks
  = match encode (texts_of chunks) with
    | inl e => inl e
    | inr vecs =>
        match zip_with with_embedding chunks vecs with
        | [] => inl IndexError
        | out => inr out
        end
    end.
Proof.
  intros Hall. unfold embed_chunks.
  destruct (get_texts chunks 0) as [[_ ->]|[Hex _]];
    [|by destruct (Forall_not_Exists_text chunks)].
  destruct (encode (texts_of chunks)) as [e|vecs]; [done|].
  cbv zeta.
  destruct chunks as [|c chunks]; [done|].
  destruct vecs as [|v vs]; [done|].
  cbn [zip_with]. unfold getitem. by rewrite lookup_insert_eq.
Qed.

(** X25: when [embed_chunks] succeeds, the model has answered, and every
    chunk returned is the chunk of the same position with the key
    [embedding] set to the vector of the same position and every other
    key unchanged; the result is not empty and not longer than the
    input. *)
Theorem embed_chunks_adds_embedding
    (encode : list value -> pyerr + list (list Q))
    (chunks out : list (gmap string value)) :
  embed_chunks encode chunks = inr out ->
  exists vecs : list (list Q),
    encode (texts_of chunks) = inr vecs
    /\ out <> []
    /\ (length out <= length chunks)%nat
    /\ forall (i : nat) (o : gmap string value),
         out !! i = Some o ->
         exists (c : gmap string value) (v : list Q),
           chunks !! i = Some c
           /\ vecs !! i = Some v
           /\ o !! "embedding" = Some (VVec v)
           /\ forall key : string, key <> "embedding"%string ->
                                   o !! key = c !! key.
Proof.
  intros Hrun.
  assert (Hall : Forall (fun c => is_Some (c !! "text")) chunks).
  { unfold embed_chunks in Hrun.
    by destruct (get_texts chunks 0) as [[? _]|[_ H]]; [|rewrite H in Hrun]. }
  rewrite (embed_chunks_eq encode chunks Hall) in Hrun.
  destruct (encode (texts_of chunks)) as [e|vecs]; [done|].
  exists vecs. split; [done|].
  destruct (zip_with with_embedding chunks vecs)
    as [|o0 out'] eqn:Hzip; [done|].
  injection Hrun as <-. rewrite <- Hzip. split; [by rewrite Hzip|]. split.
  - rewrite length_zip_with. lia.
  - intros i o Hi.
    apply lookup_zip_with_Some in Hi as (c & v & -> & Hc & Hv).
    exists c, v. split; [done|]. split; [done|].
    split; [by rewrite lookup_insert_eq|].
    intros key Hkey. by rewrite lookup_insert_ne.
Qed.

Lemma embed_chunks_adds_embedding_witness :
  exists out : list (gmap string value),
    embed_chunks demo_encode demo_dicts = inr out
    /\ exists vecs : list (list Q),
         demo_encode (texts_of demo_dicts) = inr vecs
         /\ out <> []
         /\ (length out <= length demo_dicts)%nat
         /\ forall (i : nat) (o : gmap string value),
              out !! i = Some o ->
              exists (c : gmap string value) (v : list Q),
                demo_dicts !! i = Some c
                /\ vecs !! i = Some v
                /\ o !! "embedding" = Some (VVec v)
                /\ forall key : string, key <> "embedding"%string ->
                                        o !! key = c !! key.
Proof.
  destruct (embed_chunks demo_encode demo_dicts) as [e|out] eqn:Hrun.
  - exfalso.
    assert (H : succeeds (embed_chunks demo_encode demo_dicts) = true)
      by (vm_compute; reflexivity).
    rewrite Hrun in H. discriminate H.
  - exists out. split; [reflexivity|].
    exact (embed_chunks_adds_embedding demo_encode demo_dicts out Hrun).
Defined.

(** X26: [embed_chunks] fails in three ways only: with [KeyError] for
    [text] when some chunk has no text; with the exception of the model,
    as it is, when [encode] raises; and with [IndexError] when there is
    nothing to embed - an empty list of chunks, or a model that returns
    no vector. *)
Theorem embed_chunks_failure (encode : list value -> pyerr + list (list Q))
    (chunks : list (gmap string value)) (e : pyerr) :
  embed_chunks encode chunks = inl e
  <-> (e = KeyError "text"
       /\ Exists (fun c => c !! "text" = None) chunks)
      \/ (Forall (fun c => is_Some (c !! "text")) chunks
          /\ encode (texts_of chunks) = inl e)
      \/ (e = IndexError
          /\ Forall (fun c => is_Some (c !! "text")) chunks
          /\ exists vecs : list (list Q),
               encode (texts_of chunks) = inr vecs
               /\ (chunks = [] \/ vecs = [])).
Proof.
  destruct (get_texts chunks 0) as [[Hall Ht]|[Hex Ht]].
  - rewrite (embed_chunks_eq encode chunks Hall).
    destruct (encode (texts_of chunks)) as [e'|vecs].
    { split.
      - intros [= <-]. right. left. done.
      - intros [[_ Hex]|[[_ Heq]|(_ & _ & vecs & Heq & _)]];
          [by destruct (Forall_not_Exists_text chunks)
          |by injection Heq as <-|done]. }
    split.
    + destruct chunks as [|c chunks].
      { intros [= <-]. right. right. repeat split; [done|].
        exists vecs. auto. }
      destruct vecs as [|v vs]; [|done].
      intros [= <-]. right. right. repeat split; [done|].
      exists []. auto.
    + intros [[_ Hex]|[[_ Heq]|(-> & _ & vecs' & [= <-] & [-> | ->])]].
      * by destruct (Forall_not_Exists_text chunks).
      * done.
      * done.
      * by destruct chunks.
  - unfold embed_chunks. rewrite Ht. split.
    + intros [= <-]. by left.
    + intros [[-> _]|[[Hall _]|(_ & Hall & _)]]; [done|..];
        by destruct (Forall_not_Exists_text chunks).
Qed.

(** *** From the chunker to the store *)

Lemma length_string_of_list_ascii (l : list ascii) :
  String.length (string_of_list_ascii l) = length l.
Proof. induction l as [|a l IH]; simpl; [done|by rewrite IH]. Qed.

Lemma texts_of_to_dict (chunks : list DocumentChunk) :
  texts_of (to_dict <$> chunks)
  = (fun c => VStr (string_of_list_ascii (Chunker.text c))) <$> chunks.
Proof.
  unfold texts_of. induction chunks as [|c chunks IH]; [done|].
  cbn [fmap list_fmap omap list_omap]. unfold to_dict at 1.
  rewrite lookup_insert_eq. f_equal. exact IH.
Qed.

Lemma make_record_to_dict (i : nat) (c : DocumentChunk) (v : list Q) :
  make_record i (with_embedding (to_dict c) v)
  = inr {| id := stored_id i;
           embedding := VVec v;
           document := VStr (string_of_list_ascii (Chunker.text c));
           stored_metadata :=
             <["source" :=
                 default (SStr "unknown") (Chunker.metadata c !! "source")]>
               (<["chunk_index" :=
                    default (SInt (Z.of_nat i))
                      (Chunker.metadata c !! "chunk_index")]>
                  (<["chunk_size" :=
                       default
                         (SInt (Z.of_nat (length (Chunker.text c))))
                         (Chunker.metadata c !! "chunk_size")]> ∅)) |}.
Proof.
  unfold make_record, getitem, to_dict. cbv zeta.
  rewrite lookup_insert_eq.
  rewrite lookup_insert_ne by done. rewrite lookup_insert_eq.
  rewrite lookup_insert_ne by done. rewrite lookup_insert_ne by done.
  rewrite lookup_insert_eq. cbn [len].
  by rewrite length_string_of_list_ascii.
Qed.

(** What [chunk_text] puts in the metadata that the store reads. *)
Lemma chunk_text_stored_keys (self : config) (fuel : nat) (text : str)
    (metadata : gmap string scalar) (chunks : list DocumentChunk)
    (i : nat) (c : DocumentChunk) :
  chunk_text self fuel text metadata = Some chunks ->
  chunks !! i = Some c ->
  Chunker.metadata c !! "source" = metadata !! "source"
  /\ Chunker.metadata c !! "chunk_index" = Some (SInt (Z.of_nat i))
  /\ Chunker.metadata c !! "chunk_size"
     = Some (SInt (Z.of_nat (length (Chunker.text c)))).
Proof.
  intros Hrun Hi. unfold chunk_text in Hrun.
  destruct (chunk_loop_ids _ _ _ _ _ _ _ Hrun i c Hi) as [_ Hidx].
  assert (H : Forall (fun c =>
                 Chunker.metadata c !! "source" = metadata !! "source"
                 /\ Chunker.metadata c !! "chunk_size"
                    = Some (SInt (Z.of_nat (length (Chunker.text c)))))
                chunks).
  { eapply chunk_loop_Forall; [|done|exact Hrun].
    intros start id c' _ _ Hc'.
    pose proof (make_chunk_spec _ _ _ _ _ _ _ Hc') as (_ & _ & Hsz & _ & Hk).
    split; [|done]. apply Hk. unfold chunk_keys.
    rewrite !not_elem_of_cons. repeat split; [done..|apply not_elem_of_nil]. }
  rewrite Forall_forall in H.
  destruct (H c (list_elem_of_lookup_2 _ _ _ Hi)) as [Hsrc Hsz].
  done.
Qed.

(** X27: the chunks that [chunk_text] returns for a document, turned
    into dictionaries by [to_dict] and embedded by a model that answers
    one vector per text: [embed_chunks] succeeds and [add_chunks] builds
    every record, so that it fails only in a call of [collection.add],
    with the exception of that call.  When [add_chunks] returns, every
    chunk has been handed to [collection.add], in order, under the
    identifier [id_<chunk_id>], with its vector, with its text as the
    document and with the metadata [source] (of the document, or
    [unknown] when it has none), [chunk_index] (the chunk's) and
    [chunk_size] (the length of its text); no default of [add_chunks]
    other than [unknown] is used.  What the collection keeps of them is
    the collection's affair. *)
Theorem chunks_reach_the_store {collection : Type}
    (encode : list value -> pyerr + list (list Q))
    (collection_add : collection -> list record
                      -> collection * (pyerr + unit))
    (coll : collection) (self : config) (fuel : nat) (text : str)
    (metadata : gmap string scalar) (chunks : list DocumentChunk)
    (vecs : list (list Q)) :
  chunk_text self fuel text metadata = Some chunks ->
  chunks <> [] ->
  encode (texts_of (to_dict <$> chunks)) = inr vecs ->
  length vecs = length chunks ->
  exists embedded : list (gmap string value),
    embed_chunks encode (to_dict <$> chunks) = inr embedded
    /\ (forall e : pyerr,
          result (add_chunks collection_add coll embedded) = inl e ->
          exists (before : list (list record)) (batch : list record),
            handed (add_chunks collection_add coll embedded)
            = before ++ [batch]
            /\ snd (collection_add
                      (collection_after collection_add coll before) batch)
               = inl e)
    /\ (result (add_chunks collection_add coll embedded) = inr tt ->
        let calls := handed (add_chunks collection_add coll embedded) in
        length (concat calls) = length chunks
        /\ forall (i : nat) (c : DocumentChunk),
             chunks !! i = Some c ->
             chunk_id c = Z.of_nat i
             /\ exists (r : record) (v : list Q),
                  concat calls !! i = Some r
                  /\ vecs !! i = Some v
                  /\ id r = stored_id i
                  /\ embedding r = VVec v
                  /\ document r
                     = VStr (string_of_list_ascii (Chunker.text c))
                  /\ stored_metadata r = stored_meta metadata i c).
Proof.
  intros Hrun Hne Henc Hlen.
  assert (Hdlen : length (to_dict <$> chunks) = length chunks)
    by apply length_fmap.
  assert (Hpos : (0 < length chunks)%nat)
    by (destruct chunks; [done|simpl; lia]).
  remember (to_dict <$> chunks) as dicts eqn:Hd.
  assert (Hall : Forall (fun c => is_Some (c !! "text")) dicts).
  { subst dicts. apply Forall_fmap, Forall_forall. intros c _. simpl.
    unfold to_dict. rewrite lookup_insert_eq. by eexists. }
  assert (Hemb : embed_chunks encode dicts
                 = inr (zip_with with_embedding dicts vecs)).
  { rewrite (embed_chunks_eq encode dicts Hall), Henc.
    destruct (zip_with with_embedding dicts vecs) eqn:Hz; [|done].
    apply (f_equal length) in Hz. rewrite length_zip_with in Hz.
    simpl in Hz. lia. }
  remember (zip_with with_embedding dicts vecs) as embedded eqn:He.
  assert (Hemblen : length embedded = length chunks).
  { subst embedded. rewrite length_zip_with. lia. }
  assert (Hlookup : forall (i : nat) (o : gmap string value),
             embedded !! i = Some o ->
             exists (c : DocumentChunk) (v : list Q),
               chunks !! i = Some c /\ vecs !! i = Some v
               /\ o = with_embedding (to_dict c) v).
  { intros i o Hi. subst embedded.
    apply lookup_zip_with_Some in Hi as (d & v & -> & Hdi & Hvi).
    subst dicts. rewrite list_lookup_fmap in Hdi.
    destruct (chunks !! i) as [c|]; [|done]. injection Hdi as <-.
    by exists c, v. }
  exists embedded. split; [exact Hemb|]. split.
  - intros e Hres.
    destruct (add_chunks_fails collection_add coll embedded e Hres)
      as [(_ & _ & i & o & Hi & Hmk)
         |(records & before & batch & _ & Hh & _ & Hb & _)].
    + destruct (Hlookup i o Hi) as (c & v & _ & _ & ->).
      rewrite make_record_to_dict in Hmk. done.
    + by exists before, batch.
  - intros Hres. cbv zeta.
    destruct (add_chunks_returns collection_add coll embedded Hres)
      as (records & Hrec & -> & _).
    destruct (batches_spec records) as (-> & _ & _).
    pose proof (map_from_length _ _ _ _ Hrec) as Hreclen.
    split; [lia|]. intros i c Hi.
    destruct (chunk_loop_ids _ _ _ _ _ _ _ Hrun i c Hi) as [Hid _].
    split; [lia|].
    assert (Hsome : is_Some (embedded !! i)).
    { apply lookup_lt_is_Some. rewrite Hemblen.
      by apply lookup_lt_Some in Hi. }
    destruct Hsome as [o Ho].
    destruct (Hlookup i o Ho) as (c' & v & Hc' & Hv & ->).
    rewrite Hi in Hc'. injection Hc' as <-.
    destruct (map_from_lookup _ _ _ _ Hrec i _ Ho) as (r & Hr & Hmk).
    rewrite make_record_to_dict in Hmk. injection Hmk as <-.
    eexists _, v. split; [exact Hr|]. split; [exact Hv|].
    split; [done|]. split; [done|]. split; [done|].
    destruct (chunk_text_stored_keys _ _ _ _ _ _ _ Hrun Hi)
      as (Hsrc & Hidx & Hsz).
    cbn [stored_metadata]. unfold stored_meta.
    by rewrite Hsrc, Hidx, Hsz.
Qed.

Lemma chunks_reach_the_store_witness :
  exists (chunks : list DocumentChunk) (vecs : list (list Q)),
    chunk_text plain_config 10 long_word test_meta = Some chunks
    /\ chunks <> []
    /\ demo_encode (texts_of (to_dict <$> chunks)) = inr vecs
    /\ length vecs = length chunks
    /\ exists embedded : list (gmap string value),
         embed_chunks demo_encode (to_dict <$> chunks) = inr embedded
         /\ (forall e : pyerr,
               result (add_chunks demo_add [] embedded) = inl e ->
               exists (before : list (list record)) (batch : list record),
                 handed (add_chunks demo_add [] embedded) = before ++ [batch]
                 /\ snd (demo_add (collection_after demo_add [] before) batch)
                    = inl e)
         /\ (result (add_chunks demo_add [] embedded) = inr tt ->
             let calls := handed (add_chunks demo_add [] embedded) in
             length (concat calls) = length chunks
             /\ forall (i : nat) (c : DocumentChunk),
                  chunks !! i = Some c ->
                  chunk_id c = Z.of_nat i
                  /\ exists (r : record) (v : list Q),
                       concat calls !! i = Some r
                       /\ vecs !! i = Some v
                       /\ id r = stored_id i
                       /\ embedding r = VVec v
                       /\ document r
                          = VStr (string_of_list_ascii (Chunker.text c))
                       /\ stored_metadata r = stored_meta test_meta i c).
Proof.
  destruct (chunk_text plain_config 10 long_word test_meta) as [chunks|]
    eqn:Hrun; [|refute_none Hrun].
  assert (Hne : chunks <> []).
  { assert (H : from_option
                  (fun l : list DocumentChunk => negb (Nat.eqb (length l) 0))
                  false (chunk_text plain_config 10 long_word test_meta)
                = true) by (vm_compute; reflexivity).
    rewrite Hrun in H. simpl in H. by destruct chunks. }
  exists chunks, (map (fun _ => [(1 # 2)%Q; (1 # 3)%Q])
                    (texts_of (to_dict <$> chunks))).
  assert (Hlen : length (map (fun _ : value => [(1 # 2)%Q; (1 # 3)%Q])
                           (texts_of (to_dict <$> chunks)))
                 = length chunks)
    by (by rewrite texts_of_to_dict, length_map, length_fmap).
  split; [reflexivity|]. split; [exact Hne|].
  split; [reflexivity|]. split; [exact Hlen|].
  exact (chunks_reach_the_store demo_encode demo_add [] plain_config 10
           long_word test_meta chunks _ Hrun Hne eq_refl Hlen).
Defined.

(** The demonstration document on the collection that keeps a list: all
    five chunks are in it after the run. *)
Example demo_document_in_collection :
  (fun chunks : list DocumentChunk =>
     match embed_chunks demo_encode (to_dict <$> chunks) with
     | inr embedded =>
         Some (id <$> after (add_chunks demo_add [] embedded))
     | inl _ => None
     end)
  <$> chunk_text plain_config 10 long_word test_meta
  = Some (Some ["id_0"; "id_1"; "id_2"; "id_3"; "id_4"]%string).
Proof. vm_compute. reflexivity. Qed.

End StoreExtra.
